(** * OpenFst: general weight definitions and the fstencode front end

    Shallow embedding of [src/include/fst/weight.h] (natural order, iterated
    product, textual composite-weight writer and reader) and of
    [src/bin/fstencode.cc] (the command-line driver), with the properties the
    specification states about them. *)

From Stdlib Require Import ZArith Bool Ascii String List Lia.
From Stdlib Require Import DecimalString.
Import ListNotations.

Local Open Scope Z_scope.

(** ** Machine integers

    The code counts with [int] (32 bits, two's complement) and [size_t]
    (64 bits on the LP64 targets the library is built for).  Values are kept
    as [Z]; every operation that can leave the type's range has its
    wrap-around written out.  Signed overflow is formally undefined in C++;
    the model gives it the two's-complement result. *)

Module Int.
Definition min : Z := - 2 ^ 31.
Definition max : Z := 2 ^ 31 - 1.

Definition wrap (z : Z) : Z := (z + 2 ^ 31) mod 2 ^ 32 - 2 ^ 31.

(** [++i] and [--i] on an [int]. *)
Definition incr (i : Z) : Z := wrap (i + 1).
Definition decr (i : Z) : Z := wrap (i - 1).

Definition in_range (z : Z) : Prop := min <= z <= max.
End Int.

Module SizeT.
Definition max : Z := 2 ^ 64 - 1.
Definition in_range (z : Z) : Prop := 0 <= z <= max.

(** Conversion of an [int] to [size_t], as the usual arithmetic
    conversions do for [i < n] with [int i] and [size_t n]. *)
Definition of_int (i : Z) : Z := i mod 2 ^ 64.
End SizeT.

(** ** The weight contract *)

(** What the generic code of [weight.h] uses of a weight class [W]:
    [Plus], [Times], [Zero()], [One()], [operator==], [operator!=] and
    [Properties()]. *)
Class Weight (W : Type) : Type := {
  Plus : W -> W -> W;
  Times : W -> W -> W;
  Zero : W;
  One : W;
  weight_eq : W -> W -> bool;
  weight_ne : W -> W -> bool;
  Properties : Z
}.

Declare Scope weight_scope.
Delimit Scope weight_scope with weight.
Infix "==" := weight_eq (at level 70, no associativity) : weight_scope.
Infix "!=" := weight_ne (at level 70, no associativity) : weight_scope.

Definition kLeftSemiring : Z := 1.
Definition kRightSemiring : Z := 2.
Definition kSemiring : Z := Z.lor kLeftSemiring kRightSemiring.
Definition kCommutative : Z := 4.
Definition kIdempotent : Z := 8.
Definition kPath : Z := 16.

Section NaturalOrder.
Context {W : Type} `{Weight W}.
Local Open Scope weight_scope.

(** [NaturalLess::NaturalLess()]: the diagnostics the constructor logs;
    [weight_type] is the name [W::Type()] returns. *)
Definition NaturalLess_ctor (weight_type : string) : list string :=
  if Z.eqb (Z.land Properties kIdempotent) 0
  then [("NaturalLess: Weight type is not idempotent: " ++ weight_type)%string]
  else [].

(** [NaturalLess::operator()]. *)
Definition NaturalLess (w1 w2 : W) : bool :=
  (Plus w1 w2 == w1) && (w1 != w2).
End NaturalOrder.

Section IteratedProduct.
Context {W : Type} `{Weight W}.

(** The [for] loop of [Power]: [i] is an [int] ([auto i = 0]), [n] a
    [size_t]; the test [i < n] compares them as [size_t].  [fuel] bounds the
    number of tests of the loop condition. *)
Fixpoint Power_loop (fuel : nat) (w : W) (n : Z) (i : Z) (result : W)
  : option W :=
  match fuel with
  | O => None
  | S fuel' =>
      if SizeT.of_int i <? n
      then Power_loop fuel' w n (Int.incr i) (Times result w)
      else Some result
  end.

(** [Power(w, n)]; the loop body runs at most [n] times, so [n + 1] tests
    of the condition are enough. *)
Definition Power (w : W) (n : Z) : option W :=
  Power_loop (S (Z.to_nat n)) w n 0 One.

(** [k] right multiplications by [w]. *)
Fixpoint times_n (k : nat) (w : W) (result : W) : W :=
  match k with
  | O => result
  | S k' => times_n k' w (Times result w)
  end.
End IteratedProduct.

(** A small conforming weight type: the tropical semiring over the integers
    (min, +) with infinity. *)
Inductive TropicalZ : Type :=
| TFin (z : Z)
| TInf.

Definition TropicalZ_plus (a b : TropicalZ) : TropicalZ :=
  match a, b with
  | TFin x, TFin y => TFin (Z.min x y)
  | TFin x, TInf => TFin x
  | TInf, _ => b
  end.

Definition TropicalZ_times (a b : TropicalZ) : TropicalZ :=
  match a, b with
  | TFin x, TFin y => TFin (x + y)
  | _, _ => TInf
  end.

Definition TropicalZ_eqb (a b : TropicalZ) : bool :=
  match a, b with
  | TFin x, TFin y => Z.eqb x y
  | TInf, TInf => true
  | _, _ => false
  end.

#[export] Instance TropicalZ_Weight : Weight TropicalZ := {
  Plus := TropicalZ_plus;
  Times := TropicalZ_times;
  Zero := TInf;
  One := TFin 0;
  weight_eq := TropicalZ_eqb;
  weight_ne := fun a b => negb (TropicalZ_eqb a b);
  Properties := Z.lor kSemiring (Z.lor kCommutative (Z.lor kIdempotent kPath))
}.

(** ** The semiring laws

    The laws the head of [weight.h] asks of a weight class, for a class
    whose [==] decides equality of values and whose [!=] is its negation. *)
Class WeightLaws (W : Type) `{Weight W} : Prop := {
  weight_eq_true : forall a b : W, weight_eq a b = true <-> a = b;
  weight_ne_negb : forall a b : W, weight_ne a b = negb (weight_eq a b);
  Plus_assoc : forall a b c : W, Plus (Plus a b) c = Plus a (Plus b c);
  Plus_comm : forall a b : W, Plus a b = Plus b a;
  Plus_Zero : forall a : W, Plus Zero a = a;
  Times_assoc : forall a b c : W, Times (Times a b) c = Times a (Times b c);
  Times_One_l : forall a : W, Times One a = a;
  Times_One_r : forall a : W, Times a One = a;
  Times_Zero_l : forall a : W, Times Zero a = Zero;
  Times_Zero_r : forall a : W, Times a Zero = Zero
}.

(** [kPath]: [Plus] returns one of its arguments. *)
Definition PathProperty (W : Type) `{Weight W} : Prop :=
  forall a b : W, Plus a b = a \/ Plus a b = b.

(** ** Characters and streams *)

(** Text is a list of [char]s; a [char] is an [ascii] byte. *)
Definition text : Type := list ascii.

Definition EOF : Z := -1.

(** [traits_type::to_int_type]: the value [istream::get] returns for a
    character, in [0, 255]. *)
Definition to_int_type (a : ascii) : Z := Z.of_N (N_of_ascii a).

(** Integral promotion of a plain [char], as in [c_ != separator_]; [char]
    is signed on the x86-64 targets. *)
Definition char_to_int (a : ascii) : Z :=
  if to_int_type a <? 128 then to_int_type a else to_int_type a - 256.

(** Conversion of an [int] to [char], as in [s += c_]. *)
Definition int_to_char (c : Z) : ascii := ascii_of_N (Z.to_N (c mod 256)).

(** [std::isspace] in the "C" locale: space, and [\t \n \v \f \r]. *)
Definition isspace (c : Z) : bool :=
  (c =? 32) || ((9 <=? c) && (c <=? 13)).

(** [std::ios_base::iostate]. *)
Record iostate : Type := {
  badbit : bool;
  eofbit : bool;
  failbit : bool
}.

Definition ios_goodbit : iostate :=
  {| badbit := false; eofbit := false; failbit := false |}.
Definition ios_badbit : iostate :=
  {| badbit := true; eofbit := false; failbit := false |}.
Definition ios_eofbit : iostate :=
  {| badbit := false; eofbit := true; failbit := false |}.

(** An input stream: the characters not yet extracted and the error state. *)
Record istream : Type := {
  rdbuf : text;
  rdstate : iostate
}.

Definition istream_good (strm : istream) : bool :=
  negb (badbit (rdstate strm) || eofbit (rdstate strm) || failbit (rdstate strm)).

Definition istream_bad (strm : istream) : bool := badbit (rdstate strm).

(** [istream::clear(state)] replaces the whole error state. *)
Definition istream_clear (st : iostate) (strm : istream) : istream :=
  {| rdbuf := rdbuf strm; rdstate := st |}.

(** [istream::get()]: on a stream that is not good it sets [failbit] and
    returns [EOF]; at the end of the input it sets [eofbit] and [failbit] and
    returns [EOF]; otherwise it extracts one character. *)
Definition istream_get (strm : istream) : Z * istream :=
  if istream_good strm then
    match rdbuf strm with
    | [] =>
        (EOF, {| rdbuf := [];
                 rdstate := {| badbit := badbit (rdstate strm);
                               eofbit := true; failbit := true |} |})
    | a :: rest => (to_int_type a, {| rdbuf := rest; rdstate := rdstate strm |})
    end
  else
    (EOF, {| rdbuf := rdbuf strm;
             rdstate := {| badbit := badbit (rdstate strm);
                           eofbit := eofbit (rdstate strm);
                           failbit := true |} |}).

(** The element type [T] of the templates [WriteElement] and [ReadElement]:
    [put] is the text [ostrm << comp] appends, [extract s comp] the value of
    [*comp] after [istrm >> *comp] on a string stream over [s]. *)
Class Streamable (T : Type) : Type := {
  put : T -> text;
  extract : text -> T -> T
}.

(** The flags [FLAGS_fst_weight_separator] and [FLAGS_fst_weight_parentheses]
    declared at the head of [weight.h], both strings. *)
Record WeightFlags : Type := {
  FLAGS_fst_weight_separator : text;
  FLAGS_fst_weight_parentheses : text
}.

(** [s[i]] on a [std::string]: the character at [i], and the null character
    at [i = s.size()]. *)
Definition string_at (s : text) (i : nat) : ascii := nth i s Ascii.zero.

(** ** CompositeWeightWriter *)

(** The output stream is the text written so far; it is taken to be in a
    good state, so every insertion appends. *)
Record CompositeWeightWriter : Type := {
  ostrm_ : text;
  i_ : Z
}.

Section Writer.
Context {T : Type} `{Streamable T}.
Variable flags : WeightFlags.

(** [CompositeWeightWriter::WriteElement]. *)
Definition WriteElement (w : CompositeWeightWriter) (comp : T)
  : CompositeWeightWriter :=
  let i := i_ w in
  let o :=
    if i >? 0
    then ostrm_ w ++ [string_at (FLAGS_fst_weight_separator flags) 0]
    else ostrm_ w in
  {| ostrm_ := o ++ put comp; i_ := Int.incr i |}.

(** Successive calls of [WriteElement], one per element. *)
Definition WriteElements (w : CompositeWeightWriter) (comps : list T)
  : CompositeWeightWriter :=
  fold_left WriteElement comps w.
End Writer.

(** Modelled from the spec: the constructor of [CompositeWeightWriter] (in
    weight.cc): a writer over an output stream "maintains a running element
    index", which starts at the first element. *)
Definition CompositeWeightWriter_new (ostrm : text) : CompositeWeightWriter :=
  {| ostrm_ := ostrm; i_ := 0 |}.

(** Modelled from the spec: [CompositeWeightWriter::WriteBegin] (in
    weight.cc) "emits the open-parenthesis character only if parenthesized
    composite output is configured". *)
Definition WriteBegin (flags : WeightFlags) (w : CompositeWeightWriter)
  : CompositeWeightWriter :=
  match FLAGS_fst_weight_parentheses flags with
  | [] => w
  | _ :: _ =>
      {| ostrm_ := ostrm_ w ++ [string_at (FLAGS_fst_weight_parentheses flags) 0];
         i_ := i_ w |}
  end.

(** Modelled from the spec: [CompositeWeightWriter::WriteEnd] (in weight.cc)
    "emits the close-parenthesis character only if configured". *)
Definition WriteEnd (flags : WeightFlags) (w : CompositeWeightWriter)
  : CompositeWeightWriter :=
  match FLAGS_fst_weight_parentheses flags with
  | [] => w
  | _ :: _ =>
      {| ostrm_ := ostrm_ w ++ [string_at (FLAGS_fst_weight_parentheses flags) 1];
         i_ := i_ w |}
  end.

(** ** CompositeWeightReader

    [FSTERROR()] (fst/log.h) writes a diagnostic and lets the function go
    on; the diagnostics are not part of the state modelled here. *)

Record CompositeWeightReader : Type := {
  istrm_ : istream;
  c_ : Z;
  separator_ : ascii;
  has_parens_ : bool;
  depth_ : Z;
  open_paren_ : ascii;
  close_paren_ : ascii
}.

Definition set_istrm (strm : istream) (r : CompositeWeightReader)
  : CompositeWeightReader :=
  {| istrm_ := strm; c_ := c_ r; separator_ := separator_ r;
     has_parens_ := has_parens_ r; depth_ := depth_ r;
     open_paren_ := open_paren_ r; close_paren_ := close_paren_ r |}.

Definition set_c (c : Z) (r : CompositeWeightReader) : CompositeWeightReader :=
  {| istrm_ := istrm_ r; c_ := c; separator_ := separator_ r;
     has_parens_ := has_parens_ r; depth_ := depth_ r;
     open_paren_ := open_paren_ r; close_paren_ := close_paren_ r |}.

Definition set_depth (d : Z) (r : CompositeWeightReader)
  : CompositeWeightReader :=
  {| istrm_ := istrm_ r; c_ := c_ r; separator_ := separator_ r;
     has_parens_ := has_parens_ r; depth_ := d;
     open_paren_ := open_paren_ r; close_paren_ := close_paren_ r |}.

(** [c_ = istrm_.get()]. *)
Definition get_c (r : CompositeWeightReader) : CompositeWeightReader :=
  let (c, strm) := istream_get (istrm_ r) in set_c c (set_istrm strm r).

(** [istrm_.clear(std::ios::badbit)]. *)
Definition mark_bad (r : CompositeWeightReader) : CompositeWeightReader :=
  set_istrm (istream_clear ios_badbit (istrm_ r)) r.

(** The condition of the [while] loop of [ReadElement]. *)
Definition scan_cond (r : CompositeWeightReader) (last : bool) : bool :=
  negb (c_ r =? EOF) && negb (isspace (c_ r)) &&
  (negb (c_ r =? char_to_int (separator_ r)) || (depth_ r >? 1) || last) &&
  (negb (c_ r =? char_to_int (close_paren_ r)) || negb (depth_ r =? 1)).

(** One run of the body of the [while] loop, after [s += c_]: the depth is
    updated and the next character read, or the function returns [false]
    from inside the loop with the stream marked bad. *)
Inductive body_result : Type :=
| Continue (r : CompositeWeightReader)
| ReturnFalse (r : CompositeWeightReader).

Definition scan_body (r : CompositeWeightReader) : body_result :=
  if has_parens_ r && (c_ r =? char_to_int (open_paren_ r)) then
    Continue (get_c (set_depth (Int.incr (depth_ r)) r))
  else if has_parens_ r && (c_ r =? char_to_int (close_paren_ r)) then
    if depth_ r =? 0 then ReturnFalse (mark_bad r)
    else Continue (get_c (set_depth (Int.decr (depth_ r)) r))
  else Continue (get_c r).

(** How the [while] loop of [ReadElement] is left. *)
Inductive scan_result : Type :=
| ScanDone (r : CompositeWeightReader) (s : text)
| ScanUnmatched (r : CompositeWeightReader)
| ScanOutOfFuel.

(** The [while] loop of [ReadElement]; [fuel] bounds the number of tests of
    its condition.  [ScanUnmatched] is the [return false] inside the loop,
    with the reader as that return leaves it. *)
Fixpoint ReadElement_scan (fuel : nat) (last : bool)
  (r : CompositeWeightReader) (s : text) : scan_result :=
  match fuel with
  | O => ScanOutOfFuel
  | S fuel' =>
      if scan_cond r last then
        match scan_body r with
        | Continue r' =>
            ReadElement_scan fuel' last r' (s ++ [int_to_char (c_ r)])
        | ReturnFalse r' => ScanUnmatched r'
        end
      else ScanDone r s
  end.

(** Every iteration but an aborted one extracts a character, so the loop
    tests its condition at most [size + 2] times on a stream with [size]
    characters left. *)
Definition scan_fuel (r : CompositeWeightReader) : nat :=
  S (S (length (rdbuf (istrm_ r)))).

Section Reader.
Context {T : Type} `{Streamable T}.

(** The end of [ReadElement], after a scan that filled [s]. *)
Definition ReadElement_finish (r : CompositeWeightReader) (s : text) (comp : T)
  : bool * CompositeWeightReader * T :=
  match s with
  | [] => (false, mark_bad r, comp)
  | _ :: _ =>
      let comp := extract s comp in
      let r :=
        if negb (c_ r =? EOF) && negb (isspace (c_ r)) then get_c r else r in
      let r :=
        if (c_ r =? EOF) && negb (istream_bad (istrm_ r))
        then set_istrm (istream_clear ios_eofbit (istrm_ r)) r
        else r in
      (negb (c_ r =? EOF) && negb (isspace (c_ r)), r, comp)
  end.

(** [CompositeWeightReader::ReadElement(comp, last)]: the returned flag, the
    reader and [*comp] after the call; [None] only if the scan ran out of
    fuel. *)
Definition ReadElement (r : CompositeWeightReader) (comp : T) (last : bool)
  : option (bool * CompositeWeightReader * T) :=
  match ReadElement_scan (scan_fuel r) last r [] with
  | ScanDone r' s => Some (ReadElement_finish r' s comp)
  | ScanUnmatched r' => Some (false, r', comp)
  | ScanOutOfFuel => None
  end.

(** The calls a caller makes to read [k] elements, as in the example of the
    specification: [k] calls of [ReadElement], each into a fresh [comp], the
    last one with [last = true].  The flags and the elements read are
    collected in order. *)
Fixpoint ReadElements (k : nat) (r : CompositeWeightReader) (comp : T)
  : option (list (bool * T) * CompositeWeightReader) :=
  match k with
  | O => Some ([], r)
  | S k' =>
      match ReadElement r comp (Nat.eqb k' 0) with
      | None => None
      | Some (more, r', v) =>
          match ReadElements k' r' comp with
          | None => None
          | Some (rest, r'') => Some ((more, v) :: rest, r'')
          end
      end
  end.
End Reader.

(** Modelled from the spec: the constructor of [CompositeWeightReader] (in
    weight.cc): the reader holds the "current lookahead character, a nesting
    depth counter, and configuration (separator character; whether
    parentheses are enabled; the open/close parenthesis characters)".  A new
    reader has read nothing and is at depth 0. *)
Definition CompositeWeightReader_new (flags : WeightFlags) (istrm : istream)
  : CompositeWeightReader :=
  {| istrm_ := istrm;
     c_ := 0;
     separator_ := string_at (FLAGS_fst_weight_separator flags) 0;
     has_parens_ :=
       match FLAGS_fst_weight_parentheses flags with
       | [] => false
       | _ :: _ => true
       end;
     depth_ := 0;
     open_paren_ := string_at (FLAGS_fst_weight_parentheses flags) 0;
     close_paren_ := string_at (FLAGS_fst_weight_parentheses flags) 1 |}.

(** Modelled from the spec: [CompositeWeightReader::ReadBegin] (in weight.cc)
    "consumes the open parenthesis if configured": it reads the first
    lookahead character; with parentheses enabled that character must be the
    open parenthesis, which counts one level of depth and is replaced by the
    next character.  Anything else is malformed text, which marks the stream
    bad. *)
Definition ReadBegin (r : CompositeWeightReader) : CompositeWeightReader :=
  let r := get_c r in
  if has_parens_ r then
    if c_ r =? char_to_int (open_paren_ r)
    then get_c (set_depth (Int.incr (depth_ r)) r)
    else mark_bad r
  else r.

(** *** The scan loop, step by step *)

(** The characters at which the loop stops: the negation of its condition.
    End of stream, white space, the separator at depth at most 1 unless
    [last], the close parenthesis at depth 1. *)
Definition scan_stop (r : CompositeWeightReader) (last : bool) : bool :=
  (c_ r =? EOF) || isspace (c_ r) ||
  ((c_ r =? char_to_int (separator_ r)) && (depth_ r <=? 1) && negb last) ||
  ((c_ r =? char_to_int (close_paren_ r)) && (depth_ r =? 1)).

(** The terminators in the words of the specification, with the separator
    "at nesting depth exactly 1". *)
Definition spec_scan_stop (r : CompositeWeightReader) (last : bool) : bool :=
  (c_ r =? EOF) || isspace (c_ r) ||
  ((c_ r =? char_to_int (separator_ r)) && (depth_ r =? 1) && negb last) ||
  ((c_ r =? char_to_int (close_paren_ r)) && (depth_ r =? 1)).

(** [scan_reaches last r cs r']: from [r] the loop runs its body on the
    characters [cs], none of which stops it, and arrives at [r']. *)
Inductive scan_reaches (last : bool)
  : CompositeWeightReader -> text -> CompositeWeightReader -> Prop :=
| reaches_here (r : CompositeWeightReader) : scan_reaches last r [] r
| reaches_step (r r' r'' : CompositeWeightReader) (cs : text) :
    scan_cond r last = true ->
    scan_body r = Continue r' ->
    scan_reaches last r' cs r'' ->
    scan_reaches last r (int_to_char (c_ r) :: cs) r''.

(** The tests of the loop condition still to come are at most this many. *)
Definition scan_measure (r : CompositeWeightReader) : nat :=
  if c_ r =? EOF then 1%nat else S (S (length (rdbuf (istrm_ r)))).

(** The lookahead is a close parenthesis (and not the open parenthesis, which
    the loop body tests first) at depth 0, with parentheses enabled. *)
Definition unmatched_close (r : CompositeWeightReader) : Prop :=
  has_parens_ r = true /\
  c_ r = char_to_int (close_paren_ r) /\
  c_ r <> char_to_int (open_paren_ r) /\
  depth_ r = 0.

(** Malformed input of a call [ReadElement(comp, last)] on the reader [r]:
    no character is scanned before the loop stops, or the loop body meets an
    unmatched close parenthesis. *)
Definition empty_element (last : bool) (r : CompositeWeightReader) : Prop :=
  scan_cond r last = false.

Definition unmatched_paren (last : bool) (r : CompositeWeightReader) : Prop :=
  exists (cs : text) (r1 : CompositeWeightReader),
    scan_reaches last r cs r1 /\ scan_cond r1 last = true /\ unmatched_close r1.

(** The text a reader has still to deliver: its lookahead character, unless
    that is [EOF], and the characters left in the stream. *)
Definition pending (r : CompositeWeightReader) : text :=
  if c_ r =? EOF then [] else int_to_char (c_ r) :: rdbuf (istrm_ r).

(** The lookahead is a character and the stream is good, or the end of the
    stream has been read. *)
Definition live (r : CompositeWeightReader) : Prop :=
  istream_good (istrm_ r) = true /\ 0 <= c_ r < 256.
Definition ended (r : CompositeWeightReader) : Prop :=
  c_ r = EOF /\ rdbuf (istrm_ r) = [].

(** Open parentheses minus close parentheses in a text, a character that is
    both counting as open, as the loop body tests it. *)
Fixpoint paren_balance (open close : ascii) (s : text) : Z :=
  match s with
  | [] => 0
  | a :: s' =>
      (if Ascii.eqb a open then 1
       else if Ascii.eqb a close then -1 else 0)
      + paren_balance open close s'
  end.

(** Two readers with the same separator and parentheses. *)
Definition same_config (r r' : CompositeWeightReader) : Prop :=
  separator_ r' = separator_ r /\
  has_parens_ r' = has_parens_ r /\
  open_paren_ r' = open_paren_ r /\
  close_paren_ r' = close_paren_ r.

(** Texts as elements: written as they are and read back whole. *)
#[export] Instance text_Streamable : Streamable text := {
  put := fun t => t;
  extract := fun s _ => s
}.

(** Natural numbers as elements, written in decimal. *)
Definition put_nat (n : nat) : text :=
  list_ascii_of_string (NilZero.string_of_uint (Nat.to_uint n)).

Definition extract_nat (s : text) (comp : nat) : nat :=
  match NilZero.uint_of_string (string_of_list_ascii s) with
  | Some d => Nat.of_uint d
  | None => comp
  end.

#[export] Instance nat_Streamable : Streamable nat := {
  put := put_nat;
  extract := extract_nat
}.

(** *** Text that the reader splits where the writer joined it *)

(** The text the writer produces for a list of elements: the elements'
    texts with the separator between them. *)
Fixpoint join (sep : ascii) (ts : list text) : text :=
  match ts with
  | [] => []
  | [t] => t
  | t :: ts' => t ++ sep :: join sep ts'
  end.

(** Every text of [ts] with the separator in front of it. *)
Definition sep_all (sep : ascii) (ts : list text) : text :=
  concat (map (fun t => sep :: t) ts).

Section WellNested.
Variable flags : WeightFlags.

Definition flag_separator : ascii :=
  string_at (FLAGS_fst_weight_separator flags) 0.
Definition flag_parens : bool :=
  match FLAGS_fst_weight_parentheses flags with
  | [] => false
  | _ :: _ => true
  end.
Definition flag_open : ascii :=
  string_at (FLAGS_fst_weight_parentheses flags) 0.
Definition flag_close : ascii :=
  string_at (FLAGS_fst_weight_parentheses flags) 1.

(** The depth at which the elements of a composite weight are read: inside
    the parentheses of the weight, if there are any. *)
Definition flag_base : Z := if flag_parens then 1 else 0.

(** A reader of these flags at depth [d] whose lookahead is the first
    character of [t], read from a good stream that holds [t]. *)
Definition at_text (d : Z) (t : text) : CompositeWeightReader :=
  get_c (set_depth d
           (CompositeWeightReader_new flags
              {| rdbuf := t; rdstate := ios_goodbit |})).

(** The parentheses around the elements, if there are any. *)
Definition opening : text := if flag_parens then [flag_open] else [].
Definition closing : text := if flag_parens then [flag_close] else [].

(** The flags hold one separator character and no or two parenthesis
    characters, all of them 7-bit, and the separator is not white space. *)
Definition config_ok : bool :=
  Nat.eqb (length (FLAGS_fst_weight_separator flags)) 1 &&
  (Nat.eqb (length (FLAGS_fst_weight_parentheses flags)) 0 ||
   Nat.eqb (length (FLAGS_fst_weight_parentheses flags)) 2) &&
  (to_int_type flag_separator <? 128) &&
  (to_int_type flag_open <? 128) &&
  (to_int_type flag_close <? 128) &&
  negb (isspace (to_int_type flag_separator)).

(** An element's text, read at [d] levels of parentheses of its own: no
    white space; the separator only inside parentheses of the element (or
    anywhere in the last element); with parentheses enabled, every close
    parenthesis matches an open parenthesis of the element, the nesting
    stays below [INT_MAX], and all parentheses are closed at the end. *)
Fixpoint well_nested (last : bool) (d : Z) (t : text) : bool :=
  match t with
  | [] => d =? 0
  | a :: t' =>
      negb (isspace (to_int_type a)) &&
      (negb (Ascii.eqb a flag_separator) || (0 <? d) || last) &&
      if flag_parens then
        (negb (Ascii.eqb a flag_close) || (0 <? d)) &&
        if Ascii.eqb a flag_open then
          (d + 1 <? Int.max) && well_nested last (d + 1) t'
        else if Ascii.eqb a flag_close then well_nested last (d - 1) t'
        else well_nested last d t'
      else well_nested last d t'
  end.

Definition element_ok (last : bool) (t : text) : bool :=
  match t with
  | [] => false
  | _ :: _ => well_nested last 0 t
  end.

(** All elements but the last are read with [last = false], the last one
    with [last = true]. *)
Fixpoint elements_ok (ts : list text) : bool :=
  match ts with
  | [] => false
  | [t] => element_ok true t
  | t :: ts' => element_ok false t && elements_ok ts'
  end.
End WellNested.

(** *** Example configurations and readers *)

(** Separator [,] and no parentheses; separator [,] and parentheses [()]. *)
Definition comma_flags : WeightFlags :=
  {| FLAGS_fst_weight_separator := list_ascii_of_string ",";
     FLAGS_fst_weight_parentheses := [] |}.

Definition comma_paren_flags : WeightFlags :=
  {| FLAGS_fst_weight_separator := list_ascii_of_string ",";
     FLAGS_fst_weight_parentheses := list_ascii_of_string "()" |}.

(** Reading [1,2] without parentheses, at the first character. *)
Definition reader_1_comma_2 : CompositeWeightReader :=
  {| istrm_ := {| rdbuf := list_ascii_of_string ",2"; rdstate := ios_goodbit |};
     c_ := to_int_type "1"; separator_ := ","; has_parens_ := false;
     depth_ := 0; open_paren_ := Ascii.zero; close_paren_ := Ascii.zero |}.

(** Reading [1,,2] without parentheses, at the first character. *)
Definition reader_1_comma_comma_2 : CompositeWeightReader :=
  {| istrm_ := {| rdbuf := list_ascii_of_string ",,2"; rdstate := ios_goodbit |};
     c_ := to_int_type "1"; separator_ := ","; has_parens_ := false;
     depth_ := 0; open_paren_ := Ascii.zero; close_paren_ := Ascii.zero |}.

(** Reading [1,,2] without parentheses, after the first element: the
    lookahead is the second separator. *)
Definition reader_second_comma : CompositeWeightReader :=
  {| istrm_ := {| rdbuf := list_ascii_of_string "2"; rdstate := ios_goodbit |};
     c_ := to_int_type ","; separator_ := ","; has_parens_ := false;
     depth_ := 0; open_paren_ := Ascii.zero; close_paren_ := Ascii.zero |}.

(** Reading [1)] with parentheses enabled and none open. *)
Definition reader_1_close : CompositeWeightReader :=
  {| istrm_ := {| rdbuf := list_ascii_of_string ")"; rdstate := ios_goodbit |};
     c_ := to_int_type "1"; separator_ := ","; has_parens_ := true;
     depth_ := 0; open_paren_ := "("; close_paren_ := ")" |}.

(** Reading [(1,2),3)] inside the parentheses of a weight, at the first
    character, and where the first element leaves the reader. *)
Definition reader_nested : CompositeWeightReader :=
  {| istrm_ := {| rdbuf := list_ascii_of_string "1,2),3)";
                  rdstate := ios_goodbit |};
     c_ := to_int_type "("; separator_ := ","; has_parens_ := true;
     depth_ := 1; open_paren_ := "("; close_paren_ := ")" |}.

Definition reader_nested_next : CompositeWeightReader :=
  {| istrm_ := {| rdbuf := list_ascii_of_string ")"; rdstate := ios_goodbit |};
     c_ := to_int_type "3"; separator_ := ","; has_parens_ := true;
     depth_ := 1; open_paren_ := "("; close_paren_ := ")" |}.

(** Reading [12], the last characters of the input. *)
Definition reader_12_eof : CompositeWeightReader :=
  {| istrm_ := {| rdbuf := list_ascii_of_string "2"; rdstate := ios_goodbit |};
     c_ := to_int_type "1"; separator_ := ","; has_parens_ := false;
     depth_ := 0; open_paren_ := Ascii.zero; close_paren_ := Ascii.zero |}.

(** ** fstencode *)

(** The flags defined in fstencode.cc. *)
Record EncodeMainFlags : Type := {
  FLAGS_encode_labels : bool;
  FLAGS_encode_weights : bool;
  FLAGS_encode_reuse : bool;
  FLAGS_decode : bool
}.

Section FstEncode.
(** What [main] calls and fstencode.cc does not define: the state of the
    process's surroundings (files, standard streams), the transducer class
    and the operations of the flag and script libraries. *)
Variable World : Type.
Variable MutableFstClass : Type.
Variable ShowUsage : string -> World -> World.
Variable MutableFstClass_Read :
  string -> bool -> World -> option MutableFstClass * World.
Variable MutableFstClass_Write :
  MutableFstClass -> string -> World -> bool * World.
Variable Decode :
  MutableFstClass -> string -> World -> MutableFstClass * World.
Variable GetEncodeFlags : bool -> bool -> Z.
Variable Encode :
  MutableFstClass -> Z -> bool -> string -> World -> MutableFstClass * World.

(** [argv[i]]. *)
Definition arg (argv : list string) (i : nat) : string :=
  nth i argv EmptyString.

(** The usage text [main] builds from [argv[0]]. *)
Definition usage_text (argv0 : string) : string :=
  ("Encodes transducer labels and/or weights." ++
   String "010" (String "010" "  Usage: ") ++
   argv0 ++ " in.fst codex [out.fst]" ++ String "010" "")%string.

(** [main], from the point where [SET_FLAGS] has parsed the flags into
    [fl] and removed them from [argv]: [argv] is the program name followed
    by the positional arguments, [argc] its length.  The result is the exit
    status and the state of the surroundings. *)
Definition main (fl : EncodeMainFlags) (argv : list string) (w : World)
  : Z * World :=
  let argc := Z.of_nat (length argv) in
  let usage := usage_text (arg argv 0) in
  if (argc <? 3) || (argc >? 4) then (1, ShowUsage usage w)
  else
    let in_name :=
      if negb (String.eqb (arg argv 1) "-") then arg argv 1 else ""%string in
    let codex_name := arg argv 2 in
    let out_name := if argc >? 3 then arg argv 3 else ""%string in
    match MutableFstClass_Read in_name true w with
    | (None, w1) => (1, w1)
    | (Some fst, w1) =>
        if FLAGS_decode fl then
          let (fst', w2) := Decode fst codex_name w1 in
          let (_, w3) := MutableFstClass_Write fst' out_name w2 in
          (0, w3)
        else
          let flags :=
            GetEncodeFlags (FLAGS_encode_labels fl) (FLAGS_encode_weights fl) in
          let (fst', w2) :=
            Encode fst flags (FLAGS_encode_reuse fl) codex_name w1 in
          let (_, w3) := MutableFstClass_Write fst' out_name w2 in
          (0, w3)
    end.
End FstEncode.

(** *** A toy environment for [main]

    The surroundings are a log of what was done to them; a transducer is the
    name it was read from followed by the operations applied to it. *)
Module ToyEnv.
Definition World : Type := list string.
Definition MutableFstClass : Type := list string.

Definition ShowUsage (usage : string) (w : World) : World :=
  w ++ ["usage: "%string; usage].
Definition Read (name : string) (convert : bool) (w : World)
  : option MutableFstClass * World :=
  (Some [name], w ++ ["read"%string; name]).
Definition Write (f : MutableFstClass) (name : string) (w : World)
  : bool * World :=
  (true, w ++ "write"%string :: name :: f).
Definition Decode (f : MutableFstClass) (codex : string) (w : World)
  : MutableFstClass * World :=
  (f ++ ["decoded"%string], w ++ ["read codex"%string; codex]).
Definition GetEncodeFlags (labels weights : bool) : Z :=
  (if labels then 1 else 0) + (if weights then 2 else 0).
Definition Encode (f : MutableFstClass) (flags : Z) (reuse : bool)
  (codex : string) (w : World) : MutableFstClass * World :=
  (f ++ ["encoded"%string], w ++ ["write codex"%string; codex]).

Definition main : EncodeMainFlags -> list string -> World -> Z * World :=
  main World MutableFstClass ShowUsage Read Write Decode GetEncodeFlags Encode.
End ToyEnv.

(** * Properties *)

(** ** Machine integers *)

Ltac int_lia :=
  unfold Int.in_range, Int.min, Int.max, SizeT.in_range, SizeT.max in *; lia.

Module IntFacts.
Import Int.

Lemma wrap_in_range z : in_range (wrap z).
Proof.
  unfold in_range, wrap, min, max.
  pose proof (Z.mod_pos_bound (z + 2 ^ 31) (2 ^ 32) ltac:(lia)). lia.
Qed.

Lemma wrap_small z : in_range z -> wrap z = z.
Proof.
  unfold in_range, wrap, min, max. intros H.
  rewrite Z.mod_small by lia. lia.
Qed.

Lemma wrap_wrap_add a b : wrap (wrap a + b) = wrap (a + b).
Proof.
  unfold wrap.
  replace ((a + 2 ^ 31) mod 2 ^ 32 - 2 ^ 31 + b + 2 ^ 31)
    with ((a + 2 ^ 31) mod 2 ^ 32 + b) by lia.
  rewrite Zplus_mod_idemp_l.
  replace (a + 2 ^ 31 + b) with (a + b + 2 ^ 31) by lia. reflexivity.
Qed.

Lemma incr_small i : min <= i < max -> incr i = i + 1.
Proof. intros H. apply wrap_small. unfold in_range. lia. Qed.

Lemma decr_small i : min < i <= max -> decr i = i - 1.
Proof. intros H. apply wrap_small. unfold in_range. lia. Qed.
End IntFacts.

(** ** Natural order *)

Section NaturalOrderFacts.
Context {W : Type} `{Weight W}.
Local Open Scope weight_scope.

(** C2: for every weight type and every pair [w1], [w2], [NaturalLess]
    holds exactly when [Plus(w1, w2) == w1] and [w1 != w2]: the result is
    the conjunction of these two comparisons and of nothing else. *)
Theorem NaturalLess_two_comparisons (w1 w2 : W) :
  NaturalLess w1 w2 = true <->
  (Plus w1 w2 == w1) = true /\ (w1 != w2) = true.
Proof.
  unfold NaturalLess. apply andb_true_iff.
Qed.
End NaturalOrderFacts.


(** ** Iterated product *)

Section IteratedProductFacts.
Context {W : Type} `{Weight W}.

Lemma times_n_last (k : nat) (w r : W) :
  times_n (S k) w r = Times (times_n k w r) w.
Proof.
  revert r. induction k as [|k IH]; intros r.
  - reflexivity.
  - change (times_n (S (S k)) w r) with (times_n (S k) w (Times r w)).
    rewrite IH. reflexivity.
Qed.

(** As long as the loop condition holds, [k] iterations multiply [k] times
    and advance the counter by [k] (modulo the width of [int]). *)
Lemma Power_loop_run (w : W) (n : Z) (k : nat) :
  forall (fuel : nat) (i : Z) (r : W),
    Int.in_range i ->
    (forall j, 0 <= j < Z.of_nat k -> SizeT.of_int (Int.wrap (i + j)) < n) ->
    Power_loop (k + fuel) w n i r =
    Power_loop fuel w n (Int.wrap (i + Z.of_nat k)) (times_n k w r).
Proof.
  induction k as [|k IH]; intros fuel i r Hi Hlt.
  - cbn [Nat.add times_n Z.of_nat]. rewrite Z.add_0_r.
    rewrite IntFacts.wrap_small by assumption. reflexivity.
  - cbn [Nat.add Power_loop].
    assert (H0 : SizeT.of_int i < n).
    { specialize (Hlt 0 ltac:(lia)). rewrite Z.add_0_r in Hlt.
      rewrite IntFacts.wrap_small in Hlt by assumption. exact Hlt. }
    apply Z.ltb_lt in H0. rewrite H0.
    rewrite IH.
    + unfold Int.incr. rewrite IntFacts.wrap_wrap_add.
      replace (i + 1 + Z.of_nat k) with (i + Z.of_nat (S k)) by lia.
      reflexivity.
    + apply IntFacts.wrap_in_range.
    + intros j Hj. unfold Int.incr. rewrite IntFacts.wrap_wrap_add.
      replace (i + 1 + j) with (i + (j + 1)) by lia. apply Hlt. lia.
Qed.

Lemma Power_loop_exit (w : W) (n : Z) (fuel : nat) (i : Z) (r : W) :
  n <= SizeT.of_int i -> Power_loop (S fuel) w n i r = Some r.
Proof.
  intros Hge. cbn [Power_loop].
  destruct (SizeT.of_int i <? n) eqn:E; [apply Z.ltb_lt in E; lia | reflexivity].
Qed.

(** Up to [INT_MAX + 1] the counter does not wrap and the loop runs [n]
    times. *)
Lemma Power_in_range (w : W) (n : Z) :
  0 <= n <= Int.max + 1 ->
  Power w n = Some (times_n (Z.to_nat n) w One).
Proof.
  intros Hn. unfold Power.
  replace (S (Z.to_nat n)) with (Z.to_nat n + 1)%nat by lia.
  unfold Int.max in Hn.
  rewrite Power_loop_run.
  - apply Power_loop_exit. rewrite Z2Nat.id by lia.
    unfold SizeT.of_int, Int.wrap.
    destruct (Z.eq_dec n (2 ^ 31)) as [->|Hne].
    + vm_compute. discriminate.
    + rewrite (Z.mod_small (0 + n + 2 ^ 31)) by lia.
      rewrite Z.mod_small by lia. lia.
  - unfold Int.in_range, Int.min, Int.max. lia.
  - intros j Hj. rewrite Z2Nat.id in Hj by lia.
    rewrite IntFacts.wrap_small
      by (unfold Int.in_range, Int.min, Int.max; lia).
    unfold SizeT.of_int. rewrite Z.mod_small by lia. lia.
Qed.

(** Past [INT_MAX + 1] the [int] counter wraps to [INT_MIN], which converts
    to a [size_t] above [n]: the loop leaves after [2^31] iterations. *)
Lemma Power_counter_wraps (w : W) (n : Z) :
  2 ^ 31 <= n <= 2 ^ 64 - 2 ^ 31 ->
  Power w n = Some (times_n (Z.to_nat (2 ^ 31)) w One).
Proof.
  intros Hn. unfold Power.
  replace (S (Z.to_nat n))
    with (Z.to_nat (2 ^ 31) + S (Z.to_nat n - Z.to_nat (2 ^ 31)))%nat by lia.
  rewrite Power_loop_run.
  - apply Power_loop_exit. rewrite Z2Nat.id by lia.
    replace (SizeT.of_int (Int.wrap (0 + 2 ^ 31))) with (2 ^ 64 - 2 ^ 31)
      by (vm_compute; reflexivity).
    lia.
  - unfold Int.in_range, Int.min, Int.max. lia.
  - intros j Hj. rewrite Z2Nat.id in Hj by lia.
    rewrite IntFacts.wrap_small
      by (unfold Int.in_range, Int.min, Int.max; lia).
    unfold SizeT.of_int. rewrite Z.mod_small by lia. lia.
Qed.

(** For the largest values of [n] the wrapped counter, read as a [size_t],
    is still below [n] for a while; the loop ends when it catches up. *)
Lemma Power_counter_catches_up (w : W) (n : Z) :
  2 ^ 64 - 2 ^ 31 < n <= SizeT.max ->
  Power w n = Some (times_n (Z.to_nat (n - 2 ^ 64 + 2 ^ 32)) w One).
Proof.
  intros Hn. unfold SizeT.max in Hn. unfold Power.
  replace (S (Z.to_nat n))
    with (Z.to_nat (n - 2 ^ 64 + 2 ^ 32) +
          S (Z.to_nat n - Z.to_nat (n - 2 ^ 64 + 2 ^ 32)))%nat by lia.
  rewrite Power_loop_run.
  - apply Power_loop_exit. rewrite Z2Nat.id by lia.
    unfold SizeT.of_int, Int.wrap.
    replace (0 + (n - 2 ^ 64 + 2 ^ 32) + 2 ^ 31)
      with ((n - 2 ^ 64 + 2 ^ 31) + 1 * 2 ^ 32) by lia.
    rewrite Z.mod_add by lia.
    rewrite (Z.mod_small (n - 2 ^ 64 + 2 ^ 31)) by lia.
    replace (n - 2 ^ 64 + 2 ^ 31 - 2 ^ 31) with (n + (-1) * 2 ^ 64) by lia.
    rewrite Z.mod_add by lia. rewrite Z.mod_small by lia. lia.
  - unfold Int.in_range, Int.min, Int.max. lia.
  - intros j Hj. rewrite Z2Nat.id in Hj by lia.
    unfold SizeT.of_int, Int.wrap.
    destruct (Z_lt_dec j (2 ^ 31)) as [Hs|Hb].
    + rewrite (Z.mod_small (0 + j + 2 ^ 31)) by lia.
      rewrite Z.mod_small by lia. lia.
    + replace (0 + j + 2 ^ 31) with ((j - 2 ^ 31) + 1 * 2 ^ 32) by lia.
      rewrite Z.mod_add by lia. rewrite (Z.mod_small (j - 2 ^ 31)) by lia.
      replace (j - 2 ^ 31 - 2 ^ 31) with ((j - 2 ^ 32 + 2 ^ 64) + (-1) * 2 ^ 64)
        by lia.
      rewrite Z.mod_add by lia. rewrite Z.mod_small by lia. lia.
Qed.

(** [Power] returns for every [size_t] argument. *)
Lemma Power_total (w : W) (n : Z) :
  SizeT.in_range n -> exists r, Power w n = Some r.
Proof.
  unfold SizeT.in_range. intros Hn.
  destruct (Z_le_dec n (2 ^ 31)) as [H1|H1].
  - eexists. apply Power_in_range. unfold Int.max. lia.
  - destruct (Z_le_dec n (2 ^ 64 - 2 ^ 31)) as [H2|H2].
    + eexists. apply Power_counter_wraps. lia.
    + eexists. apply Power_counter_catches_up. lia.
Qed.

(** Below the wrap-around the documented recurrence holds:
    [Power(w, 0)] is [One()] and [Power(w, n)] is
    [Times(Power(w, n - 1), w)] for [1 <= n <= INT_MAX + 1]. *)
Lemma Power_recurrence_in_range (w : W) (n : Z) :
  Power w 0 = Some One /\
  (1 <= n <= Int.max + 1 ->
   Power w n = option_map (fun p => Times p w) (Power w (n - 1))).
Proof.
  split; [reflexivity|]. intros Hn.
  rewrite (Power_in_range w n) by lia.
  rewrite (Power_in_range w (n - 1)) by lia.
  cbn [option_map]. f_equal.
  replace (Z.to_nat n) with (S (Z.to_nat (n - 1))) by lia.
  apply times_n_last.
Qed.
End IteratedProductFacts.

Lemma TropicalZ_times_n (k : nat) (z : Z) :
  times_n k (TFin 1) (TFin z) = TFin (z + Z.of_nat k).
Proof.
  revert z. induction k as [|k IH]; intros z.
  - cbn [times_n]. f_equal. lia.
  - cbn [times_n]. change (Times (TFin z) (TFin 1)) with (TFin (z + 1)).
    rewrite IH. f_equal. lia.
Qed.

Example Power_3 : Power (TFin 2) 3 = Some (TFin 6).
Proof. reflexivity. Qed.

(** C5: at [n = 2^31 + 1] the [int] loop counter has wrapped before the loop
    condition fails: [Power] returns the product of [2^31] factors, the same
    value as [Power(w, 2^31)], where the recurrence asks for
    [Times(Power(w, 2^31), w)].  In the tropical semiring with [w = 1] the
    two differ. *)
Theorem Power_int_counter_wraps_at_2p31 :
  Power (TFin 1) (2 ^ 31 + 1) = Some (TFin (2 ^ 31)) /\
  option_map (fun p => Times p (TFin 1)) (Power (TFin 1) (2 ^ 31 + 1 - 1))
    = Some (TFin (2 ^ 31 + 1)) /\
  Power (TFin 1) (2 ^ 31 + 1)
    <> option_map (fun p => Times p (TFin 1)) (Power (TFin 1) (2 ^ 31 + 1 - 1)).
Proof.
  assert (E1 : Power (TFin 1) (2 ^ 31 + 1) = Some (TFin (2 ^ 31))).
  { rewrite Power_counter_wraps by lia.
    change (@One TropicalZ _) with (TFin 0).
    rewrite TropicalZ_times_n. rewrite Z2Nat.id by lia. reflexivity. }
  assert (E2 : option_map (fun p => Times p (TFin 1))
                 (Power (TFin 1) (2 ^ 31 + 1 - 1)) = Some (TFin (2 ^ 31 + 1))).
  { rewrite Power_in_range by (unfold Int.max; lia).
    change (@One TropicalZ _) with (TFin 0).
    rewrite TropicalZ_times_n. rewrite Z2Nat.id by lia. reflexivity. }
  split; [exact E1|]. split; [exact E2|].
  rewrite E1, E2. intros Heq. inversion Heq.
Qed.

(** ** CompositeWeightWriter *)

Lemma join_cons (sep : ascii) (t : text) (ts : list text) :
  join sep (t :: ts) = t ++ sep_all sep ts.
Proof.
  revert t. induction ts as [|u ts IH]; intros t.
  - cbn. now rewrite app_nil_r.
  - change (join sep (t :: u :: ts)) with (t ++ sep :: join sep (u :: ts)).
    rewrite IH. reflexivity.
Qed.

Lemma join_length (sep : ascii) (ts : list text) :
  ts <> [] ->
  length (join sep ts) = (length (concat ts) + (length ts - 1))%nat.
Proof.
  destruct ts as [|t ts]; [congruence|]. intros _.
  rewrite join_cons. cbn [concat length]. rewrite !length_app.
  replace (S (length ts) - 1)%nat with (length ts) by lia.
  enough (E : length (sep_all sep ts) = (length (concat ts) + length ts)%nat)
    by lia.
  clear t. induction ts as [|u ts IH]; [reflexivity|].
  unfold sep_all in *. cbn [map concat length]. rewrite !length_app.
  cbn [length]. lia.
Qed.

Section WriterFacts.
Context {T : Type} `{Streamable T}.
Variable flags : WeightFlags.

(** Once an element has been written, every further element is written with
    the separator in front, as long as the index stays an [int]. *)
Lemma WriteElements_later (es : list T) :
  forall w : CompositeWeightWriter,
    0 < i_ w ->
    i_ w + Z.of_nat (length es) <= Int.max ->
    ostrm_ (WriteElements flags w es) =
      ostrm_ w ++ sep_all (flag_separator flags) (map put es) /\
    i_ (WriteElements flags w es) = i_ w + Z.of_nat (length es).
Proof.
  induction es as [|e es IH]; intros w Hpos Hmax.
  - cbn. rewrite app_nil_r. split; [reflexivity | lia].
  - cbn [length] in Hmax. unfold WriteElements in *. cbn [fold_left].
    destruct (IH (WriteElement flags w e)) as [Ho Hi].
    + cbn. rewrite IntFacts.incr_small by int_lia. lia.
    + cbn. rewrite IntFacts.incr_small by int_lia. int_lia.
    + rewrite Ho, Hi. cbn [WriteElement ostrm_ i_].
      rewrite IntFacts.incr_small by int_lia.
      assert (E : (i_ w >? 0) = true) by (apply Z.gtb_lt; lia). rewrite E.
      split; [|cbn [length]; lia].
      unfold sep_all, flag_separator. cbn [map concat].
      rewrite <- !app_assoc. reflexivity.
Qed.

Lemma WriteElements_first (w : CompositeWeightWriter) (es : list T) :
  i_ w = 0 ->
  es <> [] ->
  Z.of_nat (length es) <= Int.max ->
  ostrm_ (WriteElements flags w es) =
    ostrm_ w ++ join (flag_separator flags) (map put es) /\
  i_ (WriteElements flags w es) = Z.of_nat (length es).
Proof.
  intros Hi Hne Hmax. destruct es as [|e es]; [congruence|].
  cbn [length] in Hmax. unfold WriteElements. cbn [fold_left].
  destruct (WriteElements_later es (WriteElement flags w e)) as [Ho Hi'].
  - cbn. rewrite Hi. vm_compute. reflexivity.
  - cbn. rewrite Hi. change (Int.incr 0) with 1. int_lia.
  - unfold WriteElements in Ho, Hi'. rewrite Ho, Hi'.
    cbn [WriteElement ostrm_ i_]. rewrite Hi.
    change (0 >? 0) with false. change (Int.incr 0) with 1.
    cbn [map]. rewrite join_cons. rewrite <- app_assoc.
    split; [reflexivity|]. cbn [length]. lia.
Qed.
End WriterFacts.



(** ** fstencode *)

Section FstEncodeFacts.
Variable World : Type.
Variable MutableFstClass : Type.
Variable ShowUsage : string -> World -> World.
Variable MutableFstClass_Read :
  string -> bool -> World -> option MutableFstClass * World.
Variable MutableFstClass_Write :
  MutableFstClass -> string -> World -> bool * World.
Variable Decode :
  MutableFstClass -> string -> World -> MutableFstClass * World.
Variable GetEncodeFlags : bool -> bool -> Z.
Variable Encode :
  MutableFstClass -> Z -> bool -> string -> World -> MutableFstClass * World.

Local Abbreviation run :=
  (main World MutableFstClass ShowUsage MutableFstClass_Read
        MutableFstClass_Write Decode GetEncodeFlags Encode).

(** C8: with fewer than 2 or more than 3 positional arguments after the
    program name, [main] shows the usage text and does nothing else, and the
    exit status is 1.  With 2 or 3 of them and a transducer that could be
    read, the exit status is 0 and the last thing done is the write of the
    decoded or encoded transducer to the output name. *)
Theorem main_exit_status (fl : EncodeMainFlags) (argv : list string)
    (w : World) :
  let positional := Z.of_nat (length argv) - 1 in
  (positional < 2 \/ 3 < positional ->
   run fl argv w = (1, ShowUsage (usage_text (arg argv 0)) w)) /\
  (2 <= positional <= 3 ->
   forall (f : MutableFstClass) (w1 : World),
     MutableFstClass_Read
       (if String.eqb (arg argv 1) "-" then ""%string else arg argv 1)
       true w = (Some f, w1) ->
     exists (f' : MutableFstClass) (w2 : World),
       (if FLAGS_decode fl
        then Decode f (arg argv 2) w1
        else Encode f
               (GetEncodeFlags (FLAGS_encode_labels fl) (FLAGS_encode_weights fl))
               (FLAGS_encode_reuse fl) (arg argv 2) w1) = (f', w2) /\
       run fl argv w =
         (0, snd (MutableFstClass_Write f'
                    (if positional =? 3 then arg argv 3 else ""%string) w2))).
Proof.
  cbv zeta. split.
  - intros Hout. unfold main.
    destruct ((Z.of_nat (length argv) <? 3) || (Z.of_nat (length argv) >? 4))
      eqn:E; [reflexivity|].
    apply orb_false_iff in E. destruct E as [E1 E2].
    apply Z.ltb_ge in E1. rewrite Z.gtb_ltb in E2. apply Z.ltb_ge in E2. lia.
  - intros Hin f w1 Hread. unfold main.
    assert (E : (Z.of_nat (length argv) <? 3) || (Z.of_nat (length argv) >? 4)
                = false).
    { apply orb_false_iff. split; [apply Z.ltb_ge; lia|].
      rewrite Z.gtb_ltb. apply Z.ltb_ge. lia. }
    rewrite E.
    assert (Ein : (if negb (String.eqb (arg argv 1) "-")
                   then arg argv 1 else ""%string)
                  = (if String.eqb (arg argv 1) "-"
                     then ""%string else arg argv 1))
      by (destruct (String.eqb (arg argv 1) "-"); reflexivity).
    rewrite Ein, Hread.
    assert (Eout : (Z.of_nat (length argv) >? 3)
                   = (Z.of_nat (length argv) - 1 =? 3)).
    { rewrite Z.gtb_ltb.
      destruct (Z.ltb_spec 3 (Z.of_nat (length argv)));
        destruct (Z.eqb_spec (Z.of_nat (length argv) - 1) 3); lia. }
    rewrite Eout.
    destruct (FLAGS_decode fl).
    + destruct (Decode f (arg argv 2) w1) as [f' w2].
      exists f', w2. split; [reflexivity|].
      destruct (MutableFstClass_Write f' _ w2); reflexivity.
    + destruct (Encode f _ _ (arg argv 2) w1) as [f' w2].
      exists f', w2. split; [reflexivity|].
      destruct (MutableFstClass_Write f' _ w2); reflexivity.
Qed.

(** C10: with [--decode] set, the run does not depend on [--encode_labels],
    [--encode_weights] or [--encode_reuse]: two invocations that differ only
    in these three flags have the same exit status and the same effects. *)
Theorem main_decode_ignores_encode_flags
    (labels weights reuse labels' weights' reuse' : bool)
    (argv : list string) (w : World) :
  run {| FLAGS_encode_labels := labels; FLAGS_encode_weights := weights;
         FLAGS_encode_reuse := reuse; FLAGS_decode := true |} argv w =
  run {| FLAGS_encode_labels := labels'; FLAGS_encode_weights := weights';
         FLAGS_encode_reuse := reuse'; FLAGS_decode := true |} argv w.
Proof.
  unfold main. cbn [FLAGS_decode]. reflexivity.
Qed.
End FstEncodeFacts.

(** ** CompositeWeightReader: the scan loop *)

Lemma get_c_eq (r : CompositeWeightReader) :
  get_c r =
  set_c (fst (istream_get (istrm_ r)))
        (set_istrm (snd (istream_get (istrm_ r))) r).
Proof. unfold get_c. destruct (istream_get (istrm_ r)); reflexivity. Qed.

Lemma to_int_type_range (a : ascii) : 0 <= to_int_type a < 256.
Proof.
  unfold to_int_type. pose proof (N_ascii_bounded a) as Hb.
  split; [apply N2Z.is_nonneg|].
  change 256 with (Z.of_N 256). apply N2Z.inj_lt. exact Hb.
Qed.

(** A character read from the stream leaves one character less in it; the
    other answer of [get] is [EOF]. *)
Lemma istream_get_cases (strm : istream) :
  (fst (istream_get strm) = EOF) \/
  (exists a, rdbuf strm = a :: rdbuf (snd (istream_get strm)) /\
             fst (istream_get strm) = to_int_type a /\
             rdstate (snd (istream_get strm)) = rdstate strm /\
             istream_good strm = true).
Proof.
  unfold istream_get. destruct (istream_good strm) eqn:G.
  - destruct (rdbuf strm) as [|a rest] eqn:B.
    + left. reflexivity.
    + right. exists a. cbn. auto.
  - left. reflexivity.
Qed.

Lemma scan_cond_not_EOF (r : CompositeWeightReader) (last : bool) :
  scan_cond r last = true -> (c_ r =? EOF) = false.
Proof.
  unfold scan_cond. intros Hc.
  destruct (c_ r =? EOF); [discriminate | reflexivity].
Qed.

Lemma scan_body_measure (r r' : CompositeWeightReader) (last : bool) :
  scan_cond r last = true ->
  scan_body r = Continue r' ->
  (S (scan_measure r') <= scan_measure r)%nat.
Proof.
  intros Hc Hb. apply scan_cond_not_EOF in Hc.
  unfold scan_measure at 2. rewrite Hc.
  assert (Hget : forall d,
             (scan_measure (get_c (set_depth d r))
              <= S (length (rdbuf (istrm_ r))))%nat).
  { intros d. rewrite get_c_eq. unfold scan_measure. cbn.
    destruct (istream_get_cases (istrm_ r)) as [E|(a & Eb & Ec & _)].
    - rewrite E. cbn. lia.
    - rewrite Ec, Eb.
      pose proof (to_int_type_range a).
      destruct (to_int_type a =? EOF) eqn:E; [lia|]. cbn [length]. lia. }
  unfold scan_body in Hb.
  destruct (has_parens_ r && (c_ r =? char_to_int (open_paren_ r))).
  - inversion Hb; subst. specialize (Hget (Int.incr (depth_ r))). lia.
  - destruct (has_parens_ r && (c_ r =? char_to_int (close_paren_ r))).
    + destruct (depth_ r =? 0); [discriminate|].
      inversion Hb; subst. specialize (Hget (Int.decr (depth_ r))). lia.
    + inversion Hb; subst. specialize (Hget (depth_ r)).
      replace (set_depth (depth_ r) r) with r in Hget
        by (destruct r; reflexivity).
      lia.
Qed.

Lemma scan_fuel_measure (r : CompositeWeightReader) :
  (scan_measure r <= scan_fuel r)%nat.
Proof.
  unfold scan_measure, scan_fuel. destruct (c_ r =? EOF); lia.
Qed.

Lemma unmatched_close_body (r : CompositeWeightReader) :
  unmatched_close r <-> scan_body r = ReturnFalse (mark_bad r).
Proof.
  unfold unmatched_close, scan_body. split.
  - intros (Hp & Hc & Ho & Hd).
    apply Z.eqb_neq in Ho. rewrite Hp, Ho. cbn [andb].
    rewrite Hc at 1. rewrite Z.eqb_refl, Hd. reflexivity.
  - destruct (has_parens_ r); cbn [andb]; [|discriminate].
    destruct (Z.eqb_spec (c_ r) (char_to_int (open_paren_ r)));
      [discriminate|].
    destruct (Z.eqb_spec (c_ r) (char_to_int (close_paren_ r)));
      [|discriminate].
    destruct (Z.eqb_spec (depth_ r) 0); [|discriminate].
    auto.
Qed.

Lemma scan_body_return (r r' : CompositeWeightReader) :
  scan_body r = ReturnFalse r' -> r' = mark_bad r /\ unmatched_close r.
Proof.
  intros Hb.
  assert (E : r' = mark_bad r).
  { unfold scan_body in Hb.
    destruct (has_parens_ r && (c_ r =? char_to_int (open_paren_ r)));
      [discriminate|].
    destruct (has_parens_ r && (c_ r =? char_to_int (close_paren_ r)));
      [|discriminate].
    destruct (depth_ r =? 0); [|discriminate].
    inversion Hb. reflexivity. }
  split; [exact E|]. apply unmatched_close_body. now rewrite Hb, E.
Qed.

(** The loop condition in terms of the terminators. *)
Lemma scan_cond_stop (r : CompositeWeightReader) (last : bool) :
  scan_cond r last = negb (scan_stop r last).
Proof.
  unfold scan_cond, scan_stop.
  rewrite Z.gtb_ltb, Z.leb_antisym.
  destruct (c_ r =? EOF), (isspace (c_ r)),
    (c_ r =? char_to_int (separator_ r)), (1 <? depth_ r), last,
    (c_ r =? char_to_int (close_paren_ r)), (depth_ r =? 1); reflexivity.
Qed.

(** With enough fuel the loop ends in one of its two ways, after running
    its body on characters that did not stop it. *)
Lemma scan_outcome (last : bool) (fuel : nat) :
  forall (r : CompositeWeightReader) (s : text),
    (scan_measure r <= fuel)%nat ->
    (exists cs r',
        ReadElement_scan fuel last r s = ScanDone r' (s ++ cs) /\
        scan_reaches last r cs r' /\ scan_cond r' last = false) \/
    (exists cs r1,
        ReadElement_scan fuel last r s = ScanUnmatched (mark_bad r1) /\
        scan_reaches last r cs r1 /\ scan_cond r1 last = true /\
        unmatched_close r1).
Proof.
  induction fuel as [|fuel IH]; intros r s Hm.
  - unfold scan_measure in Hm. destruct (c_ r =? EOF); lia.
  - cbn [ReadElement_scan]. destruct (scan_cond r last) eqn:Hc.
    + destruct (scan_body r) as [r'|r'] eqn:Hb.
      * pose proof (scan_body_measure r r' last Hc Hb) as Hlt.
        destruct (IH r' (s ++ [int_to_char (c_ r)]) ltac:(lia))
          as [(cs & r2 & E & Hr & Hs)|(cs & r2 & E & Hr & Hs & Hu)].
        -- left. exists (int_to_char (c_ r) :: cs), r2.
           rewrite E, <- app_assoc. split; [reflexivity|].
           split; [|exact Hs]. eapply reaches_step; eassumption.
        -- right. exists (int_to_char (c_ r) :: cs), r2.
           rewrite E. split; [reflexivity|].
           split; [|auto]. eapply reaches_step; eassumption.
      * right. destruct (scan_body_return r r' Hb) as [-> Hu].
        exists [], r. repeat split; try assumption; try apply Hu.
        constructor.
    + left. exists [], r. rewrite app_nil_r.
      repeat split; [constructor | assumption].
Qed.

(** The scan never runs out of the fuel [ReadElement] gives it. *)
Lemma scan_fuel_enough (last : bool) (r : CompositeWeightReader) (s : text) :
  ReadElement_scan (scan_fuel r) last r s <> ScanOutOfFuel.
Proof.
  destruct (scan_outcome last (scan_fuel r) r s (scan_fuel_measure r))
    as [(cs & r' & E & _)|(cs & r' & E & _)]; rewrite E; discriminate.
Qed.

Lemma scan_done_cond (last : bool) (fuel : nat) :
  forall (r : CompositeWeightReader) (s : text) r1 s1,
    ReadElement_scan fuel last r s = ScanDone r1 s1 ->
    scan_cond r1 last = false.
Proof.
  induction fuel as [|fuel IH]; intros r s r1 s1; cbn [ReadElement_scan].
  - discriminate.
  - destruct (scan_cond r last) eqn:Hc.
    + destruct (scan_body r); [apply IH | discriminate].
    + intros E. inversion E; subst. exact Hc.
Qed.

(** A path of the loop to an unmatched close parenthesis is the path the
    loop takes. *)
Lemma scan_unmatched (last : bool) (r r1 : CompositeWeightReader) (cs : text) :
  scan_reaches last r cs r1 ->
  scan_cond r1 last = true ->
  unmatched_close r1 ->
  forall (fuel : nat) (s : text),
    (scan_measure r <= fuel)%nat ->
    ReadElement_scan fuel last r s = ScanUnmatched (mark_bad r1).
Proof.
  intros Hr Hc Hu. apply unmatched_close_body in Hu.
  induction Hr as [r|r r' r'' cs Hc' Hb Hr IH]; intros fuel s Hm.
  - destruct fuel as [|fuel];
      [unfold scan_measure in Hm; destruct (c_ r =? EOF); lia|].
    cbn [ReadElement_scan]. rewrite Hc, Hu. reflexivity.
  - destruct fuel as [|fuel];
      [unfold scan_measure in Hm; destruct (c_ r =? EOF); lia|].
    cbn [ReadElement_scan]. rewrite Hc', Hb.
    pose proof (scan_body_measure r r' last Hc' Hb).
    apply IH; [assumption | assumption | lia].
Qed.

Section ReaderFacts.
Context {T : Type} `{Streamable T}.

(** [ReadElement] returns on every reader. *)
Lemma ReadElement_total (r : CompositeWeightReader) (comp : T) (last : bool) :
  exists res, ReadElement r comp last = Some res.
Proof.
  unfold ReadElement.
  pose proof (scan_fuel_enough last r []) as Hf.
  destruct (ReadElement_scan (scan_fuel r) last r []);
    [eexists; reflexivity | eexists; reflexivity | congruence].
Qed.
End ReaderFacts.

(** ** CompositeWeightReader: ReadElement *)

(** The first call on [1,,2] reads [1], skips the first separator and
    leaves the second one as lookahead. *)
Example ReadElement_first_of_1_comma_comma_2 :
  ReadElement reader_1_comma_comma_2 0%nat false
  = Some (true, reader_second_comma, 1%nat).
Proof. reflexivity. Qed.

(** Three calls on [3,7,2], the last with [last = true], read 3, 7 and 2. *)
Example ReadElements_3_7_2 :
  option_map fst
    (ReadElements 3
       {| istrm_ := {| rdbuf := list_ascii_of_string ",7,2";
                       rdstate := ios_goodbit |};
          c_ := to_int_type "3"; separator_ := ","; has_parens_ := false;
          depth_ := 0; open_paren_ := Ascii.zero; close_paren_ := Ascii.zero |}
       0%nat)
  = Some [(true, 3%nat); (true, 7%nat); (false, 2%nat)].
Proof. reflexivity. Qed.

(** C3: on malformed input -- no character scanned before the loop stops
    (an empty element, as at the second of two consecutive separators), or a
    close parenthesis met by the loop body at depth 0 -- [ReadElement]
    returns [false], leaves the stream with exactly [badbit] set, and leaves
    [*comp] as it was. *)
Theorem ReadElement_rejects_malformed (T : Type) (ST : Streamable T)
    (r : CompositeWeightReader) (comp : T) (last : bool) :
  empty_element last r \/ unmatched_paren last r ->
  exists r' : CompositeWeightReader,
    ReadElement r comp last = Some (false, r', comp) /\
    rdstate (istrm_ r') = ios_badbit /\
    istream_bad (istrm_ r') = true.
Proof.
  intros [He|(cs & r1 & Hr & Hc & Hu)]; unfold ReadElement.
  - unfold empty_element in He. unfold scan_fuel.
    cbn [ReadElement_scan]. rewrite He. cbn [ReadElement_finish].
    eexists. repeat split.
  - rewrite (scan_unmatched last r r1 cs Hr Hc Hu _ _ (scan_fuel_measure r)).
    eexists. repeat split.
Qed.

(** The two examples of the specification: the second call on [1,,2], and
    [1)] with parentheses enabled. *)
Lemma ReadElement_rejects_malformed_witness :
  (exists r',
      ReadElement reader_second_comma (list_ascii_of_string "old") false
        = Some (false, r', list_ascii_of_string "old") /\
      rdstate (istrm_ r') = ios_badbit /\ istream_bad (istrm_ r') = true) /\
  (exists r',
      ReadElement reader_1_close (list_ascii_of_string "old") false
        = Some (false, r', list_ascii_of_string "old") /\
      rdstate (istrm_ r') = ios_badbit /\ istream_bad (istrm_ r') = true).
Proof.
  split.
  - apply (ReadElement_rejects_malformed text text_Streamable
             reader_second_comma (list_ascii_of_string "old") false).
    left. reflexivity.
  - apply (ReadElement_rejects_malformed text text_Streamable
             reader_1_close (list_ascii_of_string "old") false).
    right. exists ["1"%char], (get_c reader_1_close).
    split; [|split].
    + apply (reaches_step false reader_1_close (get_c reader_1_close)
               (get_c reader_1_close) []);
        [reflexivity | reflexivity | apply reaches_here].
    + reflexivity.
    + unfold unmatched_close. repeat split. vm_compute. discriminate.
Defined.

(** C4, as stated: the scan of [1,2] without parentheses stops at the
    separator although the depth is 0, not 1: the loop can stop at a
    character that is none of the terminators of the claim. *)
Lemma scan_stops_at_separator_at_depth_0 :
  ~ (forall (last : bool) (fuel : nat) (r : CompositeWeightReader) (s : text)
            (r1 : CompositeWeightReader) (s1 : text),
        ReadElement_scan fuel last r s = ScanDone r1 s1 ->
        spec_scan_stop r1 last = true).
Proof.
  intros Hclaim.
  specialize (Hclaim false (scan_fuel reader_1_comma_2) reader_1_comma_2 []
                (get_c reader_1_comma_2) ["1"%char] eq_refl).
  vm_compute in Hclaim. discriminate.
Qed.

(** C4, amended: the loop continues exactly while the lookahead is none of:
    end of stream, white space, the separator at depth at most 1 (not when
    [last]), the close parenthesis at depth 1.  With [last] the separator
    plays no part.  Every call scans characters that are none of these into
    the buffer and then either stops at the first that is one of them, or is
    aborted at an unmatched close parenthesis. *)
Theorem ReadElement_scan_terminators (r : CompositeWeightReader)
    (last : bool) :
  scan_cond r last = negb (scan_stop r last) /\
  scan_stop r true =
    ((c_ r =? EOF) || isspace (c_ r) ||
     ((c_ r =? char_to_int (close_paren_ r)) && (depth_ r =? 1))) /\
  ((exists cs r',
       ReadElement_scan (scan_fuel r) last r [] = ScanDone r' cs /\
       scan_reaches last r cs r' /\ scan_stop r' last = true) \/
   (exists cs r1,
       ReadElement_scan (scan_fuel r) last r [] = ScanUnmatched (mark_bad r1) /\
       scan_reaches last r cs r1 /\ scan_stop r1 last = false /\
       unmatched_close r1)).
Proof.
  split; [apply scan_cond_stop|]. split.
  - unfold scan_stop. cbn [negb]. rewrite andb_false_r, orb_false_r.
    reflexivity.
  - destruct (scan_outcome last (scan_fuel r) r [] (scan_fuel_measure r))
      as [(cs & r' & E & Hr & Hs)|(cs & r' & E & Hr & Hs & Hu)].
    + left. exists cs, r'. rewrite scan_cond_stop in Hs.
      apply negb_false_iff in Hs. auto.
    + right. exists cs, r'. rewrite scan_cond_stop in Hs.
      apply negb_true_iff in Hs. auto.
Qed.

(** C9: when the scan has filled the buffer and was stopped by [EOF] on a
    stream that is not bad, [ReadElement] parses the buffer into [*comp],
    leaves the stream with exactly [eofbit] set ([failbit] cleared) and
    returns [false]. *)
Theorem ReadElement_at_end_of_stream (T : Type) (ST : Streamable T)
    (r : CompositeWeightReader) (comp : T) (last : bool)
    (r1 : CompositeWeightReader) (s : text) :
  ReadElement_scan (scan_fuel r) last r [] = ScanDone r1 s ->
  s <> [] ->
  c_ r1 = EOF ->
  istream_bad (istrm_ r1) = false ->
  ReadElement r comp last =
    Some (false,
          set_istrm (istream_clear ios_eofbit (istrm_ r1)) r1,
          extract s comp) /\
  rdstate (istream_clear ios_eofbit (istrm_ r1)) = ios_eofbit /\
  failbit (rdstate (istream_clear ios_eofbit (istrm_ r1))) = false.
Proof.
  intros Hscan Hne Hc Hb. unfold ReadElement. rewrite Hscan.
  destruct s as [|a s]; [congruence|]. cbn [ReadElement_finish].
  assert (E1 : negb (c_ r1 =? EOF) && negb (isspace (c_ r1)) = false)
    by (rewrite Hc; reflexivity).
  rewrite E1.
  assert (E2 : (c_ r1 =? EOF) && negb (istream_bad (istrm_ r1)) = true)
    by (rewrite Hc, Hb; reflexivity).
  rewrite E2. cbn [c_ set_istrm]. rewrite Hc. repeat split.
Qed.

(** The call on [12] at the end of the input: the read of the end of stream
    sets [failbit], which the call clears. *)
Lemma ReadElement_at_end_of_stream_witness :
  ReadElement reader_12_eof (@nil ascii) false =
    Some (false,
          set_istrm
            (istream_clear ios_eofbit
               (istrm_ (get_c (get_c reader_12_eof))))
            (get_c (get_c reader_12_eof)),
          extract (list_ascii_of_string "12") (@nil ascii)) /\
  rdstate (istream_clear ios_eofbit (istrm_ (get_c (get_c reader_12_eof))))
    = ios_eofbit /\
  failbit
    (rdstate (istream_clear ios_eofbit (istrm_ (get_c (get_c reader_12_eof)))))
    = false.
Proof.
  apply (ReadElement_at_end_of_stream text text_Streamable reader_12_eof
           (@nil ascii) false (get_c (get_c reader_12_eof))
           (list_ascii_of_string "12")).
  - reflexivity.
  - discriminate.
  - reflexivity.
  - reflexivity.
Defined.

(** ** Round trip through writer and reader *)

Lemma int_to_char_to_int_type (a : ascii) : int_to_char (to_int_type a) = a.
Proof.
  unfold int_to_char. rewrite Z.mod_small by apply to_int_type_range.
  unfold to_int_type. rewrite N2Z.id. apply ascii_N_embedding.
Qed.

Lemma to_int_type_inj (a b : ascii) : to_int_type a = to_int_type b -> a = b.
Proof.
  unfold to_int_type. intros E. apply N2Z.inj in E.
  rewrite <- (ascii_N_embedding a), <- (ascii_N_embedding b). now rewrite E.
Qed.

(** Against a 7-bit character the reader's comparison of the lookahead with
    a [char] is equality of characters. *)
Lemma lookahead_eqb (a b : ascii) :
  (to_int_type b <? 128) = true ->
  (to_int_type a =? char_to_int b) = Ascii.eqb a b.
Proof.
  intros Hb. unfold char_to_int. rewrite Hb.
  destruct (Ascii.eqb_spec a b) as [->|Hne].
  - apply Z.eqb_refl.
  - apply Z.eqb_neq. intros E. apply Hne. now apply to_int_type_inj.
Qed.

Lemma to_int_type_not_EOF (a : ascii) : (to_int_type a =? EOF) = false.
Proof.
  apply Z.eqb_neq. pose proof (to_int_type_range a). unfold EOF. lia.
Qed.

Section RoundTripFacts.
Variable flags : WeightFlags.
Hypothesis Hcfg : config_ok flags = true.

Lemma config_7bit :
  (to_int_type (flag_separator flags) <? 128) = true /\
  (to_int_type (flag_open flags) <? 128) = true /\
  (to_int_type (flag_close flags) <? 128) = true /\
  isspace (to_int_type (flag_separator flags)) = false.
Proof.
  unfold config_ok in Hcfg.
  repeat (apply andb_true_iff in Hcfg; destruct Hcfg as [Hcfg ?]).
  rewrite negb_true_iff in *. auto.
Qed.

Lemma at_text_cons (d : Z) (a : ascii) (rest : text) :
  at_text flags d (a :: rest) =
  {| istrm_ := {| rdbuf := rest; rdstate := ios_goodbit |};
     c_ := to_int_type a;
     separator_ := flag_separator flags;
     has_parens_ := flag_parens flags;
     depth_ := d;
     open_paren_ := flag_open flags;
     close_paren_ := flag_close flags |}.
Proof. reflexivity. Qed.

Lemma at_text_nil (d : Z) :
  at_text flags d [] =
  {| istrm_ := {| rdbuf := [];
                  rdstate := {| badbit := false; eofbit := true;
                                failbit := true |} |};
     c_ := EOF;
     separator_ := flag_separator flags;
     has_parens_ := flag_parens flags;
     depth_ := d;
     open_paren_ := flag_open flags;
     close_paren_ := flag_close flags |}.
Proof. reflexivity. Qed.

Lemma get_c_at_text (d d' : Z) (a : ascii) (rest : text) :
  get_c (set_depth d' (at_text flags d (a :: rest))) = at_text flags d' rest.
Proof. destruct rest; reflexivity. Qed.

Lemma get_c_at_text_same (d : Z) (a : ascii) (rest : text) :
  get_c (at_text flags d (a :: rest)) = at_text flags d rest.
Proof. destruct rest; reflexivity. Qed.

(** One character of a well-nested element: the loop does not stop at it,
    and its body moves on to the next character, at the depth the rest of
    the element is well nested at. *)
Lemma scan_step_inside (last : bool) (a : ascii) (t rest : text) (d : Z) :
  0 <= d ->
  flag_base flags + d <= Int.max ->
  (flag_parens flags = false -> d = 0) ->
  well_nested flags last d (a :: t) = true ->
  exists d',
    0 <= d' /\ flag_base flags + d' <= Int.max /\
    (flag_parens flags = false -> d' = 0) /\
    well_nested flags last d' t = true /\
    scan_cond (at_text flags (flag_base flags + d) (a :: rest)) last = true /\
    scan_body (at_text flags (flag_base flags + d) (a :: rest))
      = Continue (at_text flags (flag_base flags + d') rest).
Proof.
  intros Hd Hmax Hnp Hwn.
  destruct config_7bit as (Hs7 & Ho7 & Hc7 & Hsp).
  cbn [well_nested] in Hwn.
  apply andb_true_iff in Hwn. destruct Hwn as [Hwn Hrest].
  apply andb_true_iff in Hwn. destruct Hwn as [Hspace Hsep].
  apply negb_true_iff in Hspace.
  set (r := at_text flags (flag_base flags + d) (a :: rest)).
  assert (Fc : c_ r = to_int_type a) by reflexivity.
  assert (Fd : depth_ r = flag_base flags + d) by reflexivity.
  assert (Fs : separator_ r = flag_separator flags) by reflexivity.
  assert (Fo : open_paren_ r = flag_open flags) by reflexivity.
  assert (Fcl : close_paren_ r = flag_close flags) by reflexivity.
  assert (Fp : has_parens_ r = flag_parens flags) by reflexivity.
  unfold scan_cond, scan_body. rewrite Fc, Fd, Fs, Fo, Fcl, Fp.
  rewrite to_int_type_not_EOF, Hspace, !lookahead_eqb by assumption.
  cbn [negb andb]. rewrite Z.gtb_ltb.
  unfold flag_base in *. destruct (flag_parens flags) eqn:Hp.
  - apply andb_true_iff in Hrest. destruct Hrest as [Hclose Hrest].
    assert (Ec1 : negb (Ascii.eqb a (flag_separator flags)) || (1 <? 1 + d)
                  || last = true).
    { apply orb_true_iff in Hsep. destruct Hsep as [Hsep|Hl].
      - apply orb_true_iff in Hsep. destruct Hsep as [E|E].
        + rewrite E. reflexivity.
        + apply Z.ltb_lt in E. assert (E' : (1 <? 1 + d) = true)
            by (apply Z.ltb_lt; lia).
          rewrite E'. now rewrite orb_true_r.
      - rewrite Hl. now rewrite orb_true_r. }
    assert (Ec2 : negb (Ascii.eqb a (flag_close flags)) || negb (1 + d =? 1)
                  = true).
    { apply orb_true_iff in Hclose. destruct Hclose as [E|E].
      - rewrite E. reflexivity.
      - apply Z.ltb_lt in E. assert (E' : (1 + d =? 1) = false)
          by (apply Z.eqb_neq; lia).
        rewrite E'. now rewrite orb_true_r. }
    rewrite Ec1, Ec2. cbn [andb].
    destruct (Ascii.eqb a (flag_open flags)) eqn:Eo.
    + apply andb_true_iff in Hrest. destruct Hrest as [Hlt Hrest].
      apply Z.ltb_lt in Hlt.
      exists (d + 1).
      split; [lia|]. split; [lia|]. split; [congruence|].
      split; [assumption|]. split; [reflexivity|].
      rewrite IntFacts.incr_small by int_lia.
      subst r. rewrite get_c_at_text. f_equal. f_equal. lia.
    + destruct (Ascii.eqb a (flag_close flags)) eqn:Ec.
      * cbn [negb orb] in Hclose. apply Z.ltb_lt in Hclose.
        assert (E0 : (1 + d =? 0) = false) by (apply Z.eqb_neq; lia).
        rewrite E0.
        exists (d - 1).
        split; [lia|]. split; [lia|]. split; [congruence|].
        split; [assumption|]. split; [reflexivity|].
        rewrite IntFacts.decr_small by int_lia.
        subst r. rewrite get_c_at_text. f_equal. f_equal. lia.
      * exists d.
        split; [lia|]. split; [lia|]. split; [congruence|].
        split; [assumption|]. split; [reflexivity|].
        subst r. rewrite get_c_at_text_same. reflexivity.
  - specialize (Hnp eq_refl). subst d.
    rewrite Z.add_0_r in *. change (0 <? 0) with false in Hsep.
    change (1 <? 0) with false. change (0 =? 1) with false.
    cbn [orb] in Hsep. cbn [orb]. rewrite Hsep.
    cbn [negb andb]. rewrite orb_true_r.
    exists 0.
    split; [lia|]. split; [lia|]. split; [reflexivity|].
    split; [assumption|]. split; [reflexivity|].
    subst r. rewrite get_c_at_text_same. reflexivity.
Qed.

(** The scan of a well-nested element runs through all its characters and
    arrives at what follows the element, back at the depth of the
    elements. *)
Lemma scan_element (last : bool) (tail : text) (t : text) :
  forall (d : Z) (s : text) (fuel : nat),
    0 <= d ->
    flag_base flags + d <= Int.max ->
    (flag_parens flags = false -> d = 0) ->
    well_nested flags last d t = true ->
    ReadElement_scan (length t + fuel) last
      (at_text flags (flag_base flags + d) (t ++ tail)) s =
    ReadElement_scan fuel last (at_text flags (flag_base flags) tail) (s ++ t).
Proof.
  induction t as [|a t IH]; intros d s fuel Hd Hmax Hnp Hwn.
  - cbn [well_nested] in Hwn. apply Z.eqb_eq in Hwn. subst d.
    rewrite Z.add_0_r, app_nil_r. reflexivity.
  - destruct (scan_step_inside last a t (t ++ tail) d Hd Hmax Hnp Hwn)
      as (d' & Hd' & Hmax' & Hnp' & Hwn' & Hc & Hb).
    cbn [length Nat.add app ReadElement_scan]. rewrite Hc, Hb.
    rewrite (IH d' _ fuel Hd' Hmax' Hnp' Hwn').
    replace (c_ (at_text flags (flag_base flags + d) (a :: t ++ tail)))
      with (to_int_type a) by reflexivity.
    rewrite int_to_char_to_int_type, <- app_assoc. reflexivity.
Qed.
Lemma scan_element_0 (last : bool) (tail t s : text) (fuel : nat) :
  well_nested flags last 0 t = true ->
  ReadElement_scan (length t + fuel) last
    (at_text flags (flag_base flags) (t ++ tail)) s =
  ReadElement_scan fuel last (at_text flags (flag_base flags) tail) (s ++ t).
Proof.
  intros Hwn.
  assert (Hbase : 0 <= flag_base flags <= 1)
    by (unfold flag_base; destruct (flag_parens flags); lia).
  rewrite <- (scan_element last tail t 0 s fuel);
    [rewrite Z.add_0_r; reflexivity | lia | int_lia | reflexivity | exact Hwn].
Qed.

Lemma element_ok_head (last : bool) (t : text) :
  element_ok flags last t = true ->
  exists b t', t = b :: t' /\ isspace (to_int_type b) = false /\
               well_nested flags last 0 t = true.
Proof.
  destruct t as [|b t']; [discriminate|]. intros Hok.
  exists b, t'. split; [reflexivity|]. split; [|exact Hok].
  unfold element_ok in Hok. cbn [well_nested] in Hok.
  apply andb_true_iff in Hok. destruct Hok as [Hok _].
  apply andb_true_iff in Hok. destruct Hok as [Hok _].
  now apply negb_true_iff in Hok.
Qed.

Lemma flag_base_range : 0 <= flag_base flags <= 1.
Proof. unfold flag_base. destruct (flag_parens flags); lia. Qed.

Lemma scan_stops_at_separator (next : text) :
  scan_cond (at_text flags (flag_base flags) (flag_separator flags :: next))
    false = false.
Proof.
  destruct config_7bit as (Hs7 & _).
  set (r := at_text flags (flag_base flags) (flag_separator flags :: next)).
  assert (Fc : c_ r = to_int_type (flag_separator flags)) by reflexivity.
  assert (Fd : depth_ r = flag_base flags) by reflexivity.
  assert (Fs : separator_ r = flag_separator flags) by reflexivity.
  unfold scan_cond. rewrite Fc, Fd, Fs, lookahead_eqb, Ascii.eqb_refl
    by assumption.
  assert (E : (flag_base flags >? 1) = false).
  { rewrite Z.gtb_ltb. apply Z.ltb_ge. apply flag_base_range. }
  rewrite E. cbn [negb orb]. rewrite andb_false_r. reflexivity.
Qed.

Section Elements.
Context {T : Type} `{Streamable T}.

(** An element that is not the last one: the scan stops at the separator
    after it, the separator is skipped, and more elements remain. *)
Lemma ReadElement_inner (t : text) (b : ascii) (next : text) (comp : T) :
  element_ok flags false t = true ->
  isspace (to_int_type b) = false ->
  ReadElement
    (at_text flags (flag_base flags)
       (t ++ flag_separator flags :: b :: next)) comp false =
  Some (true, at_text flags (flag_base flags) (b :: next), extract t comp).
Proof.
  intros Hok Hb.
  destruct (element_ok_head false t Hok) as (a & t' & -> & _ & Hwn).
  destruct config_7bit as (Hs7 & _ & _ & Hsp).
  unfold ReadElement.
  replace (scan_fuel (at_text flags (flag_base flags)
                        ((a :: t') ++ flag_separator flags :: b :: next)))
    with (length (a :: t') + S (S (S (length next))))%nat.
  2:{ unfold scan_fuel. cbn [app]. rewrite at_text_cons. cbn [istrm_ rdbuf].
      rewrite length_app. cbn [length]. lia. }
  rewrite scan_element_0 by exact Hwn.
  cbn [ReadElement_scan]. rewrite scan_stops_at_separator.
  cbn [app ReadElement_finish].
  replace (c_ (at_text flags (flag_base flags)
                 (flag_separator flags :: b :: next)))
    with (to_int_type (flag_separator flags)) by reflexivity.
  rewrite to_int_type_not_EOF, Hsp. cbn [negb andb].
  rewrite get_c_at_text_same.
  assert (Fb : c_ (at_text flags (flag_base flags) (b :: next))
               = to_int_type b) by reflexivity.
  rewrite Fb, to_int_type_not_EOF. cbn [negb andb].
  rewrite Fb, to_int_type_not_EOF, Hb. reflexivity.
Qed.

(** The last element: the scan stops at the close parenthesis or at the end
    of the stream, and no more elements remain. *)
Lemma ReadElement_final (t : text) (comp : T) :
  element_ok flags true t = true ->
  exists r',
    ReadElement (at_text flags (flag_base flags) (t ++ closing flags)) comp true
    = Some (false, r', extract t comp).
Proof.
  intros Hok.
  destruct (element_ok_head true t Hok) as (a & t' & -> & _ & Hwn).
  destruct config_7bit as (_ & _ & Hc7 & _).
  unfold ReadElement.
  replace (scan_fuel (at_text flags (flag_base flags)
                        ((a :: t') ++ closing flags)))
    with (length (a :: t') + S (length (closing flags)))%nat.
  2:{ unfold scan_fuel. cbn [app]. rewrite at_text_cons. cbn [istrm_ rdbuf].
      rewrite length_app. cbn [length]. lia. }
  rewrite scan_element_0 by exact Hwn.
  unfold closing, flag_base. destruct (flag_parens flags) eqn:Hp.
  - set (r := at_text flags 1 [flag_close flags]).
    assert (Fc : c_ r = to_int_type (flag_close flags)) by reflexivity.
    assert (Fd : depth_ r = 1) by reflexivity.
    assert (Fcl : close_paren_ r = flag_close flags) by reflexivity.
    assert (Hstop : scan_cond r true = false).
    { unfold scan_cond.
      rewrite Fc, Fd, Fcl,
        (lookahead_eqb (flag_close flags) (flag_close flags)), Ascii.eqb_refl
        by assumption.
      cbn. apply andb_false_r. }
    cbn [ReadElement_scan]. rewrite Hstop. cbn [app ReadElement_finish].
    rewrite Fc, to_int_type_not_EOF. cbn [negb andb].
    destruct (isspace (to_int_type (flag_close flags))) eqn:Hsp;
      cbn [negb andb].
    + rewrite Fc, to_int_type_not_EOF. cbn [negb andb].
      rewrite Fc, to_int_type_not_EOF, Hsp. eexists. reflexivity.
    + subst r. rewrite get_c_at_text_same, at_text_nil. cbn.
      eexists. reflexivity.
  - rewrite at_text_nil. cbn. eexists. reflexivity.
Qed.

(** The calls of the caller read back, in order, elements whose texts are
    joined by the separator and closed by the close parenthesis. *)
Lemma ReadElements_joined (dflt : T) (es : list T) :
  elements_ok flags (map put es) = true ->
  (forall e c, In e es -> extract (put e) c = e) ->
  exists res r',
    ReadElements (length es)
      (at_text flags (flag_base flags)
         (join (flag_separator flags) (map put es) ++ closing flags)) dflt
    = Some (res, r') /\
    map snd res = es /\
    map fst res = repeat true (length es - 1) ++ [false].
Proof.
  induction es as [|e es IH]; [discriminate|].
  intros Hok Hext. destruct es as [|e2 es].
  - cbn [map elements_ok] in Hok.
    destruct (ReadElement_final (put e) dflt Hok) as (r' & E).
    cbn [map join length ReadElements Nat.eqb]. rewrite E.
    exists [(false, extract (put e) dflt)], r'.
    split; [reflexivity|]. split; [|reflexivity].
    cbn. rewrite Hext by (left; reflexivity). reflexivity.
  - change (elements_ok flags (map put (e :: e2 :: es)))
      with (element_ok flags false (put e) &&
            elements_ok flags (map put (e2 :: es))) in Hok.
    apply andb_true_iff in Hok. destruct Hok as [Hok1 Hok2].
    destruct (IH Hok2 (fun x c Hx => Hext x c (or_intror Hx)))
      as (res & r' & E & Hsnd & Hfst).
    assert (Hhead : exists b u, join (flag_separator flags)
                                  (map put (e2 :: es)) ++ closing flags
                                = b :: u /\ isspace (to_int_type b) = false).
    { assert (Hok2' : element_ok flags false (put e2) = true \/
                      element_ok flags true (put e2) = true).
      { cbn [map elements_ok] in Hok2. destruct (map put es).
        - right. exact Hok2.
        - left. apply andb_true_iff in Hok2. apply Hok2. }
      assert (Hh : exists b t', put e2 = b :: t' /\
                                isspace (to_int_type b) = false).
      { destruct Hok2' as [Hk|Hk];
          destruct (element_ok_head _ _ Hk) as (b & t' & Eq & Hb & _);
          exists b, t'; auto. }
      destruct Hh as (b & t' & Eq & Hb).
      cbn [map]. rewrite join_cons, Eq. cbn [app].
      eexists b, _. split; [reflexivity | exact Hb]. }
    destruct Hhead as (b & u & Eu & Hb).
    change (join (flag_separator flags) (map put (e :: e2 :: es)))
      with (put e ++ flag_separator flags ::
            join (flag_separator flags) (map put (e2 :: es))).
    rewrite <- app_assoc. cbn [app]. rewrite Eu.
    change (length (e :: e2 :: es)) with (S (length (e2 :: es))).
    cbn [ReadElements]. change (length (e2 :: es) =? 0)%nat with false.
    rewrite (ReadElement_inner (put e) b u dflt Hok1 Hb).
    rewrite <- Eu, E.
    exists ((true, extract (put e) dflt) :: res), r'.
    split; [reflexivity|]. split.
    + cbn [map snd]. rewrite Hext by (left; reflexivity). now rewrite Hsnd.
    + cbn [map fst]. rewrite Hfst. cbn [length].
      replace (S (S (length es)) - 1)%nat with (S (S (length es) - 1)) by lia.
      reflexivity.
Qed.

(** What the writer writes for a composite weight: the open parenthesis if
    any, the elements joined by the separator, the close parenthesis if
    any. *)
Lemma written_text (es : list T) :
  es <> [] ->
  Z.of_nat (length es) <= Int.max ->
  ostrm_ (WriteEnd flags
            (WriteElements flags
               (WriteBegin flags (CompositeWeightWriter_new [])) es))
  = opening flags ++ join (flag_separator flags) (map put es) ++ closing flags.
Proof.
  intros Hne Hmax.
  assert (Hb : ostrm_ (WriteBegin flags (CompositeWeightWriter_new []))
               = opening flags /\
               i_ (WriteBegin flags (CompositeWeightWriter_new [])) = 0).
  { unfold WriteBegin, opening, flag_parens, flag_open.
    destruct (FLAGS_fst_weight_parentheses flags); split; reflexivity. }
  destruct Hb as [Hbo Hbi].
  destruct (WriteElements_first flags _ es Hbi Hne Hmax) as [Ho _].
  unfold WriteEnd at 1. unfold closing, flag_parens, flag_close.
  destruct (FLAGS_fst_weight_parentheses flags) eqn:Ep.
  - rewrite Ho, Hbo, app_nil_r. reflexivity.
  - cbn [ostrm_]. rewrite Ho, Hbo, <- app_assoc. reflexivity.
Qed.
End Elements.

(** [ReadBegin] on a new reader over the written text leaves the reader at
    the first element. *)
Lemma ReadBegin_written (body : text) :
  ReadBegin
    (CompositeWeightReader_new flags
       {| rdbuf := opening flags ++ body; rdstate := ios_goodbit |})
  = at_text flags (flag_base flags) body.
Proof.
  destruct config_7bit as (_ & Ho7 & _ & _).
  unfold ReadBegin, opening, flag_base. cbv zeta.
  destruct (flag_parens flags) eqn:Hp; cbn [app].
  - set (r := get_c (CompositeWeightReader_new flags
                       {| rdbuf := flag_open flags :: body;
                          rdstate := ios_goodbit |})).
    assert (Fr : r = at_text flags 0 (flag_open flags :: body))
      by reflexivity.
    assert (Fp : has_parens_ r = flag_parens flags) by reflexivity.
    assert (Fc : c_ r = to_int_type (flag_open flags)) by reflexivity.
    assert (Fo : open_paren_ r = flag_open flags) by reflexivity.
    assert (Fd : Int.incr (depth_ r) = 1) by reflexivity.
    rewrite Fp, Hp, Fc, Fo, Fd, lookahead_eqb, Ascii.eqb_refl by assumption.
    rewrite Fr. apply get_c_at_text.
  - set (r := get_c (CompositeWeightReader_new flags
                       {| rdbuf := body; rdstate := ios_goodbit |})).
    assert (Fp : has_parens_ r = flag_parens flags)
      by (subst r; rewrite get_c_eq; reflexivity).
    rewrite Fp, Hp. reflexivity.
Qed.
End RoundTripFacts.




(** [main] in the toy environment: with one positional argument, and with
    two and [--decode]. *)
Lemma main_exit_status_witness :
  ToyEnv.main
    {| FLAGS_encode_labels := false; FLAGS_encode_weights := false;
       FLAGS_encode_reuse := false; FLAGS_decode := true |}
    ["fstencode"; "in.fst"]%string []
  = (1, ToyEnv.ShowUsage (usage_text "fstencode") []) /\
  (exists f' w2,
      ToyEnv.Decode ["in.fst"%string] "codex" ["read"; "in.fst"]%string
        = (f', w2) /\
      ToyEnv.main
        {| FLAGS_encode_labels := false; FLAGS_encode_weights := false;
           FLAGS_encode_reuse := false; FLAGS_decode := true |}
        ["fstencode"; "in.fst"; "codex"]%string []
      = (0, snd (ToyEnv.Write f' "" w2))).
Proof.
  split.
  - apply (proj1 (main_exit_status ToyEnv.World ToyEnv.MutableFstClass
                    ToyEnv.ShowUsage ToyEnv.Read ToyEnv.Write ToyEnv.Decode
                    ToyEnv.GetEncodeFlags ToyEnv.Encode
                    {| FLAGS_encode_labels := false;
                       FLAGS_encode_weights := false;
                       FLAGS_encode_reuse := false; FLAGS_decode := true |}
                    ["fstencode"; "in.fst"]%string [])).
    left. vm_compute. reflexivity.
  - apply (proj2 (main_exit_status ToyEnv.World ToyEnv.MutableFstClass
                    ToyEnv.ShowUsage ToyEnv.Read ToyEnv.Write ToyEnv.Decode
                    ToyEnv.GetEncodeFlags ToyEnv.Encode
                    {| FLAGS_encode_labels := false;
                       FLAGS_encode_weights := false;
                       FLAGS_encode_reuse := false; FLAGS_decode := true |}
                    ["fstencode"; "in.fst"; "codex"]%string [])
             ltac:(vm_compute; split; discriminate)
             ["in.fst"%string] ["read"; "in.fst"]%string).
    reflexivity.
Defined.

(** * Further properties of the code *)

(** ** The tropical weights obey the laws *)

Lemma TropicalZ_Laws : WeightLaws TropicalZ.
Proof.
  split.
  - intros [x|] [y|]; cbn; split; intros E; try discriminate;
      try reflexivity.
    + apply Z.eqb_eq in E. now subst.
    + inversion E. apply Z.eqb_refl.
  - reflexivity.
  - intros [x|] [y|] [z|]; cbn; try reflexivity. f_equal. lia.
  - intros [x|] [y|]; cbn; try reflexivity. f_equal. lia.
  - intros [x|]; reflexivity.
  - intros [x|] [y|] [z|]; cbn; try reflexivity. f_equal. lia.
  - intros [x|]; cbn; try reflexivity.
  - intros [x|]; cbn; try reflexivity. f_equal. lia.
  - intros [x|]; reflexivity.
  - intros [x|]; reflexivity.
Qed.

Lemma TropicalZ_Path : PathProperty TropicalZ.
Proof.
  intros [x|] [y|]; cbn; auto.
  destruct (Z.min_spec x y) as [[_ E]|[_ E]]; rewrite E; auto.
Qed.

(** ** Natural order *)

Section NaturalOrderLaws.
Context {W : Type} `{Weight W}.

Lemma NaturalLess_spec (L : WeightLaws W) (a b : W) :
  NaturalLess a b = true <-> Plus a b = a /\ a <> b.
Proof.
  unfold NaturalLess. rewrite andb_true_iff, weight_ne_negb, negb_true_iff.
  rewrite weight_eq_true. split; intros [E N]; split; try assumption.
  - intros Hab. apply weight_eq_true in Hab. congruence.
  - destruct (weight_eq a b) eqn:Q; [|reflexivity].
    apply weight_eq_true in Q. contradiction.
Qed.
End NaturalOrderLaws.

(** X1: on a weight class that obeys the semiring laws, [NaturalLess] is a
    strict partial order: no weight is less than itself, two weights are
    never less than each other, and the order is transitive. *)
Theorem NaturalLess_strict_order (W : Type) (HW : Weight W)
    (L : WeightLaws W) :
  (forall a : W, NaturalLess a a = false) /\
  (forall a b : W, NaturalLess a b = true -> NaturalLess b a = false) /\
  (forall a b c : W,
      NaturalLess a b = true -> NaturalLess b c = true ->
      NaturalLess a c = true).
Proof.
  split; [|split].
  - intros a. destruct (NaturalLess a a) eqn:E; [|reflexivity].
    apply (NaturalLess_spec L) in E. destruct E as [_ N]. congruence.
  - intros a b Hab. destruct (NaturalLess b a) eqn:E; [|reflexivity].
    apply (NaturalLess_spec L) in Hab. apply (NaturalLess_spec L) in E.
    destruct Hab as [Eab N]. destruct E as [Eba _].
    rewrite Plus_comm in Eba. congruence.
  - intros a b c Hab Hbc.
    apply (NaturalLess_spec L) in Hab. apply (NaturalLess_spec L) in Hbc.
    apply (NaturalLess_spec L).
    destruct Hab as [Eab Nab]. destruct Hbc as [Ebc Nbc]. split.
    + rewrite <- Eab at 1. rewrite Plus_assoc, Ebc. exact Eab.
    + intros Eac. subst c. rewrite Plus_comm in Ebc. congruence.
Qed.

Lemma NaturalLess_strict_order_witness :
  NaturalLess (TFin 1) (TFin 1) = false /\
  (NaturalLess (TFin 1) (TFin 2) = true ->
   NaturalLess (TFin 2) (TFin 1) = false) /\
  (NaturalLess (TFin 1) (TFin 2) = true ->
   NaturalLess (TFin 2) (TFin 3) = true ->
   NaturalLess (TFin 1) (TFin 3) = true).
Proof.
  destruct (NaturalLess_strict_order TropicalZ TropicalZ_Weight TropicalZ_Laws)
    as (Hirr & Hasym & Htrans).
  split; [apply Hirr|]. split; [apply Hasym | apply Htrans].
Defined.

(** X2: with the path property the order is total: of two weights, either
    they are equal or exactly one is less than the other. *)
Theorem NaturalLess_total_on_path (W : Type) (HW : Weight W)
    (L : WeightLaws W) (HP : PathProperty W) (a b : W) :
  (a = b /\ NaturalLess a b = false /\ NaturalLess b a = false) \/
  (a <> b /\ NaturalLess a b = true /\ NaturalLess b a = false) \/
  (a <> b /\ NaturalLess a b = false /\ NaturalLess b a = true).
Proof.
  destruct (weight_eq a b) eqn:Q.
  - apply weight_eq_true in Q. subst b. left.
    assert (E : NaturalLess a a = false).
    { destruct (NaturalLess a a) eqn:E; [|reflexivity].
      apply (NaturalLess_spec L) in E. destruct E as [_ N]. congruence. }
    auto.
  - assert (N : a <> b).
    { intros E. apply weight_eq_true in E. congruence. }
    right. destruct (HP a b) as [E|E].
    + left. split; [exact N|].
      assert (Hab : NaturalLess a b = true)
        by (apply (NaturalLess_spec L); auto).
      split; [exact Hab|].
      destruct (NaturalLess b a) eqn:Hba; [|reflexivity].
      apply (NaturalLess_spec L) in Hba. destruct Hba as [Eba _].
      rewrite Plus_comm in Eba. congruence.
    + right. split; [exact N|].
      assert (Hba : NaturalLess b a = true).
      { apply (NaturalLess_spec L). split; [|congruence].
        rewrite Plus_comm. exact E. }
      split; [|exact Hba].
      destruct (NaturalLess a b) eqn:Hab; [|reflexivity].
      apply (NaturalLess_spec L) in Hab. destruct Hab as [Eab _]. congruence.
Qed.

Lemma NaturalLess_total_on_path_witness :
  (TFin 5 = TInf /\ NaturalLess (TFin 5) TInf = false /\
   NaturalLess TInf (TFin 5) = false) \/
  (TFin 5 <> TInf /\ NaturalLess (TFin 5) TInf = true /\
   NaturalLess TInf (TFin 5) = false) \/
  (TFin 5 <> TInf /\ NaturalLess (TFin 5) TInf = false /\
   NaturalLess TInf (TFin 5) = true).
Proof.
  apply (NaturalLess_total_on_path TropicalZ TropicalZ_Weight TropicalZ_Laws
           TropicalZ_Path (TFin 5) TInf).
Defined.

(** ** Iterated product *)

Section PowerLaws.
Context {W : Type} `{Weight W}.

(** The product [Power] returns has [n] factors when the counter does not
    wrap, and at least one factor whenever [n >= 1]. *)
Lemma Power_factors (w : W) (n : Z) :
  SizeT.in_range n ->
  exists k : nat,
    Power w n = Some (times_n k w One) /\
    (n <= 2 ^ 31 -> k = Z.to_nat n) /\
    (1 <= n -> (1 <= k)%nat).
Proof.
  unfold SizeT.in_range, SizeT.max. intros Hn.
  destruct (Z_le_dec n (2 ^ 31)) as [H1|H1].
  - exists (Z.to_nat n). split; [apply Power_in_range; int_lia|].
    split; [reflexivity | lia].
  - destruct (Z_le_dec n (2 ^ 64 - 2 ^ 31)) as [H2|H2].
    + exists (Z.to_nat (2 ^ 31)).
      split; [apply Power_counter_wraps; lia|]. split; lia.
    + exists (Z.to_nat (n - 2 ^ 64 + 2 ^ 32)).
      split; [apply Power_counter_catches_up; int_lia|]. split; lia.
Qed.

Lemma times_n_add (a b : nat) (w r : W) :
  times_n (a + b) w r = times_n b w (times_n a w r).
Proof.
  revert r. induction a as [|a IH]; intros r; [reflexivity|].
  cbn [Nat.add times_n]. apply IH.
Qed.

Lemma times_n_from (L : WeightLaws W) (k : nat) (w r : W) :
  times_n k w r = Times r (times_n k w One).
Proof.
  induction k as [|k IH].
  - cbn [times_n]. now rewrite Times_One_r.
  - rewrite !times_n_last, IH, Times_assoc. reflexivity.
Qed.

Lemma times_n_One (L : WeightLaws W) (k : nat) : times_n k One One = One.
Proof.
  induction k as [|k IH]; [reflexivity|].
  rewrite times_n_last, IH. apply Times_One_l.
Qed.

Lemma times_n_Zero (L : WeightLaws W) (k : nat) :
  times_n (S k) Zero One = Zero.
Proof. rewrite times_n_last. apply Times_Zero_r. Qed.
End PowerLaws.

(** X3: [Power] returns for every [size_t] argument: the loop ends although
    its [int] counter can wrap. *)
Theorem Power_terminates (W : Type) (HW : Weight W) (w : W) (n : Z) :
  0 <= n <= 2 ^ 64 - 1 -> exists r : W, Power w n = Some r.
Proof.
  intros Hn. destruct (Power_factors w n Hn) as (k & E & _).
  eexists. exact E.
Qed.

Lemma Power_terminates_witness :
  exists r : TropicalZ, Power (TFin 3) (2 ^ 64 - 1) = Some r.
Proof.
  apply (Power_terminates TropicalZ TropicalZ_Weight (TFin 3) (2 ^ 64 - 1)).
  lia.
Defined.

(** X4: while [n] is at most [INT_MAX + 1], [Power(w, n)] is
    [Times(Power(w, n - 1), w)], starting from [Power(w, 0) = One()]. *)
Theorem Power_recurrence_below_wrap (W : Type) (HW : Weight W) (w : W)
    (n : Z) :
  1 <= n <= 2 ^ 31 ->
  Power w 0 = Some One /\
  exists p : W, Power w (n - 1) = Some p /\ Power w n = Some (Times p w).
Proof.
  intros Hn. split; [reflexivity|].
  exists (times_n (Z.to_nat (n - 1)) w One).
  split; [apply Power_in_range; int_lia|].
  rewrite Power_in_range by int_lia.
  replace (Z.to_nat n) with (S (Z.to_nat (n - 1))) by lia.
  now rewrite times_n_last.
Qed.

Lemma Power_recurrence_below_wrap_witness :
  Power (TFin 2) 0 = Some One /\
  exists p : TropicalZ,
    Power (TFin 2) (5 - 1) = Some p /\
    Power (TFin 2) 5 = Some (Times p (TFin 2)).
Proof.
  apply (Power_recurrence_below_wrap TropicalZ TropicalZ_Weight (TFin 2) 5).
  lia.
Defined.

(** X5: in a semiring, powers add their exponents: while [m + n] is at most
    [INT_MAX + 1], [Power(w, m + n)] is [Times(Power(w, m), Power(w, n))]. *)
Theorem Power_add (W : Type) (HW : Weight W) (L : WeightLaws W) (w : W)
    (m n : Z) :
  0 <= m -> 0 <= n -> m + n <= 2 ^ 31 ->
  exists p q : W,
    Power w m = Some p /\ Power w n = Some q /\
    Power w (m + n) = Some (Times p q).
Proof.
  intros Hm Hn Hmn.
  exists (times_n (Z.to_nat m) w One), (times_n (Z.to_nat n) w One).
  split; [apply Power_in_range; int_lia|].
  split; [apply Power_in_range; int_lia|].
  rewrite Power_in_range by int_lia.
  rewrite Z2Nat.inj_add by lia.
  rewrite times_n_add. now rewrite (times_n_from L (Z.to_nat n)).
Qed.

Lemma Power_add_witness :
  exists p q : TropicalZ,
    Power (TFin 2) 3 = Some p /\ Power (TFin 2) 4 = Some q /\
    Power (TFin 2) (3 + 4) = Some (Times p q).
Proof.
  apply (Power_add TropicalZ TropicalZ_Weight TropicalZ_Laws (TFin 2) 3 4);
    lia.
Defined.

(** X6: in a semiring, for every [size_t] exponent, also past the wrap of
    the counter: every power of [One()] is [One()], and every power of
    [Zero()] with a positive exponent is [Zero()]. *)
Theorem Power_One_Zero (W : Type) (HW : Weight W) (L : WeightLaws W)
    (n : Z) :
  0 <= n <= 2 ^ 64 - 1 ->
  Power One n = Some One /\ (1 <= n -> Power Zero n = Some Zero).
Proof.
  intros Hn. split.
  - destruct (Power_factors One n Hn) as (k & E & _).
    rewrite E. now rewrite (times_n_One L).
  - intros H1. destruct (Power_factors Zero n Hn) as (k & E & _ & Hk).
    rewrite E. destruct k as [|k]; [specialize (Hk H1); lia|].
    now rewrite (times_n_Zero L).
Qed.

Lemma Power_One_Zero_witness :
  Power (TFin 0) (2 ^ 40) = Some (TFin 0) /\
  (1 <= 2 ^ 40 -> Power TInf (2 ^ 40) = Some TInf).
Proof.
  apply (Power_One_Zero TropicalZ TropicalZ_Weight TropicalZ_Laws (2 ^ 40)).
  lia.
Defined.

(** ** CompositeWeightWriter *)

(** X7: a writer that has already written an element ([i_ > 0]) puts the
    separator in front of every further element, as long as its index stays
    an [int]: a weight can be written in several batches. *)
Theorem WriteElement_continues (T : Type) (ST : Streamable T)
    (flags : WeightFlags) (w : CompositeWeightWriter) (es : list T) :
  0 < i_ w ->
  i_ w + Z.of_nat (length es) <= Int.max ->
  ostrm_ (WriteElements flags w es) =
    ostrm_ w ++
    concat (map (fun e => string_at (FLAGS_fst_weight_separator flags) 0
                            :: put e) es) /\
  i_ (WriteElements flags w es) = i_ w + Z.of_nat (length es).
Proof.
  intros Hpos Hmax.
  destruct (WriteElements_later flags es w Hpos Hmax) as [Ho Hi].
  split; [|exact Hi]. rewrite Ho. unfold sep_all, flag_separator.
  now rewrite map_map.
Qed.

Lemma WriteElement_continues_witness :
  ostrm_ (WriteElements comma_flags
            {| ostrm_ := list_ascii_of_string "3"; i_ := 1 |} [7; 2]%nat)
  = list_ascii_of_string "3" ++
    concat (map (fun e => string_at (FLAGS_fst_weight_separator comma_flags) 0
                            :: put e) [7; 2]%nat) /\
  i_ (WriteElements comma_flags
        {| ostrm_ := list_ascii_of_string "3"; i_ := 1 |} [7; 2]%nat)
  = 1 + Z.of_nat (length [7; 2]%nat).
Proof.
  apply (WriteElement_continues nat nat_Streamable comma_flags
           {| ostrm_ := list_ascii_of_string "3"; i_ := 1 |} [7; 2]%nat).
  - reflexivity.
  - vm_compute. discriminate.
Defined.

(** ** CompositeWeightReader: what a call keeps and what it consumes *)

Lemma istream_get_bad (strm : istream) :
  istream_bad (snd (istream_get strm)) = istream_bad strm.
Proof.
  unfold istream_get, istream_bad.
  destruct (istream_good strm); [destruct (rdbuf strm)|]; reflexivity.
Qed.

Lemma get_c_bad (r : CompositeWeightReader) :
  istream_bad (istrm_ (get_c r)) = istream_bad (istrm_ r).
Proof. rewrite get_c_eq. cbn. apply istream_get_bad. Qed.

Lemma get_c_config (r : CompositeWeightReader) :
  same_config r (get_c r) /\ depth_ (get_c r) = depth_ r.
Proof. rewrite get_c_eq. unfold same_config. cbn. auto. Qed.

(** A step of the loop keeps the configuration and the badness of the
    stream, and without parentheses the depth. *)
Lemma scan_body_keeps (r r' : CompositeWeightReader) :
  scan_body r = Continue r' ->
  same_config r r' /\
  istream_bad (istrm_ r') = istream_bad (istrm_ r) /\
  (has_parens_ r = false -> depth_ r' = depth_ r).
Proof.
  unfold scan_body. intros Hb.
  assert (Hd : forall d,
             same_config r (get_c (set_depth d r)) /\
             istream_bad (istrm_ (get_c (set_depth d r)))
               = istream_bad (istrm_ r)).
  { intros d. split.
    - apply (get_c_config (set_depth d r)).
    - apply (get_c_bad (set_depth d r)). }
  destruct (has_parens_ r) eqn:Hp; cbn [andb] in Hb.
  - destruct (c_ r =? char_to_int (open_paren_ r)).
    + inversion Hb; subst. destruct (Hd (Int.incr (depth_ r))) as [C B].
      split; [exact C|]. split; [exact B|]. intros X; discriminate X.
    + destruct (c_ r =? char_to_int (close_paren_ r)).
      * destruct (depth_ r =? 0); [discriminate|].
        inversion Hb; subst. destruct (Hd (Int.decr (depth_ r))) as [C B].
        split; [exact C|]. split; [exact B|]. intros X; discriminate X.
      * inversion Hb; subst. destruct (get_c_config r) as [C _].
        split; [exact C|]. split; [apply get_c_bad|].
        intros X; discriminate X.
  - inversion Hb; subst. destruct (get_c_config r) as [C Hdp].
    split; [exact C|]. split; [apply get_c_bad|]. intros _; exact Hdp.
Qed.

Lemma same_config_trans (a b c : CompositeWeightReader) :
  same_config a b -> same_config b c -> same_config a c.
Proof.
  unfold same_config. intros (A1 & A2 & A3 & A4) (B1 & B2 & B3 & B4).
  repeat split; congruence.
Qed.

Lemma scan_reaches_keeps (last : bool) (r r' : CompositeWeightReader)
    (cs : text) :
  scan_reaches last r cs r' ->
  same_config r r' /\
  istream_bad (istrm_ r') = istream_bad (istrm_ r) /\
  (has_parens_ r = false -> depth_ r' = depth_ r).
Proof.
  induction 1 as [r|r r1 r2 cs Hc Hb Hr IH].
  - unfold same_config. auto.
  - destruct (scan_body_keeps r r1 Hb) as (C1 & B1 & D1).
    destruct IH as (C2 & B2 & D2).
    split; [eapply same_config_trans; eassumption|].
    split; [congruence|].
    intros Hp. rewrite D2, D1; auto.
    destruct C1 as (_ & E & _). congruence.
Qed.

Section ReaderKeeps.
Context {T : Type} `{Streamable T}.

(** The two ways a call ends, with the path the scan took. *)
Lemma ReadElement_cases (r : CompositeWeightReader) (comp : T) (last : bool) :
  (exists cs r1,
      scan_reaches last r cs r1 /\ scan_cond r1 last = false /\
      ReadElement_scan (scan_fuel r) last r [] = ScanDone r1 cs /\
      ReadElement r comp last = Some (ReadElement_finish r1 cs comp)) \/
  (exists cs r1,
      scan_reaches last r cs r1 /\ scan_cond r1 last = true /\
      unmatched_close r1 /\
      ReadElement r comp last = Some (false, mark_bad r1, comp)).
Proof.
  unfold ReadElement.
  destruct (scan_outcome last (scan_fuel r) r [] (scan_fuel_measure r))
    as [(cs & r1 & E & Hr & Hs)|(cs & r1 & E & Hr & Hs & Hu)]; rewrite E.
  - left. exists cs, r1. auto.
  - right. exists cs, r1. auto.
Qed.

Lemma ReadElement_finish_keeps (r1 : CompositeWeightReader) (s : text)
    (comp : T) :
  let '(more, r', v) := ReadElement_finish r1 s comp in
  same_config r1 r' /\ depth_ r' = depth_ r1 /\
  (istream_bad (istrm_ r1) = true -> istream_bad (istrm_ r') = true).
Proof.
  unfold ReadElement_finish. destruct s as [|a s].
  - unfold same_config. cbn. auto.
  - set (r2 := if negb (c_ r1 =? EOF) && negb (isspace (c_ r1))
               then get_c r1 else r1).
    assert (K2 : same_config r1 r2 /\ depth_ r2 = depth_ r1 /\
                 istream_bad (istrm_ r2) = istream_bad (istrm_ r1)).
    { subst r2. destruct (negb (c_ r1 =? EOF) && negb (isspace (c_ r1))).
      - destruct (get_c_config r1). split; [assumption|].
        split; [assumption | apply get_c_bad].
      - unfold same_config. auto. }
    destruct K2 as (C2 & D2 & B2).
    destruct (istream_bad (istrm_ r2)) eqn:Bad.
    + rewrite andb_false_r. split; [assumption|]. split; [assumption|].
      intros _. exact Bad.
    + destruct (c_ r2 =? EOF); cbn [andb negb].
      * split; [exact C2|]. split; [exact D2|]. intros Hb. congruence.
      * split; [exact C2|]. split; [exact D2|]. intros Hb. congruence.
Qed.
End ReaderKeeps.

(** X8: a call of [ReadElement] never changes the separator and the
    parentheses the reader was configured with, and without parentheses it
    never changes the depth. *)
Theorem ReadElement_keeps_configuration (T : Type) (ST : Streamable T)
    (r : CompositeWeightReader) (comp : T) (last : bool)
    (more : bool) (r' : CompositeWeightReader) (v : T) :
  ReadElement r comp last = Some (more, r', v) ->
  same_config r r' /\ (has_parens_ r = false -> depth_ r' = depth_ r).
Proof.
  intros E.
  destruct (ReadElement_cases r comp last)
    as [(cs & r1 & Hr & _ & _ & E')|(cs & r1 & Hr & _ & _ & E')];
    rewrite E' in E; destruct (scan_reaches_keeps _ _ _ _ Hr) as (C & _ & D).
  - pose proof (ReadElement_finish_keeps r1 cs comp) as K.
    destruct (ReadElement_finish r1 cs comp) as [[m r2] v2].
    inversion E; subst. destruct K as (C2 & D2 & _).
    split; [eapply same_config_trans; eassumption|].
    intros Hp. rewrite D2. auto.
  - inversion E; subst. split.
    + eapply same_config_trans; [exact C|]. unfold same_config. cbn. auto.
    + intros Hp. cbn. auto.
Qed.

Lemma ReadElement_keeps_configuration_witness :
  same_config reader_1_comma_2 (get_c (get_c reader_1_comma_2)) /\
  (has_parens_ reader_1_comma_2 = false ->
   depth_ (get_c (get_c reader_1_comma_2)) = depth_ reader_1_comma_2).
Proof.
  apply (ReadElement_keeps_configuration text text_Streamable
           reader_1_comma_2 (@nil ascii) false true
           (get_c (get_c reader_1_comma_2)) ["1"%char]).
  reflexivity.
Defined.

(** X9: [ReadElement] never clears [badbit]: on a stream that is bad
    before the call, the stream is bad after it. *)
Theorem ReadElement_bad_stays_bad (T : Type) (ST : Streamable T)
    (r : CompositeWeightReader) (comp : T) (last : bool)
    (more : bool) (r' : CompositeWeightReader) (v : T) :
  ReadElement r comp last = Some (more, r', v) ->
  istream_bad (istrm_ r) = true ->
  istream_bad (istrm_ r') = true.
Proof.
  intros E Hbad.
  destruct (ReadElement_cases r comp last)
    as [(cs & r1 & Hr & _ & _ & E')|(cs & r1 & Hr & _ & _ & E')];
    rewrite E' in E; destruct (scan_reaches_keeps _ _ _ _ Hr) as (_ & B & _).
  - pose proof (ReadElement_finish_keeps r1 cs comp) as K.
    destruct (ReadElement_finish r1 cs comp) as [[m r2] v2].
    inversion E; subst. destruct K as (_ & _ & K). apply K. congruence.
  - inversion E; subst. reflexivity.
Qed.

Lemma ReadElement_bad_stays_bad_witness :
  istream_bad
    (istrm_ (get_c (mark_bad reader_1_comma_2))) = true.
Proof.
  apply (ReadElement_bad_stays_bad text text_Streamable
           (mark_bad reader_1_comma_2) (@nil ascii) false false
           (get_c (mark_bad reader_1_comma_2)) ["1"%char]).
  - reflexivity.
  - reflexivity.
Defined.

(** *** The characters of the stream *)

Lemma to_int_type_int_to_char (c : Z) :
  0 <= c < 256 -> to_int_type (int_to_char c) = c.
Proof.
  intros Hc. unfold to_int_type, int_to_char.
  rewrite Z.mod_small by lia.
  rewrite N_ascii_embedding.
  - apply Z2N.id. lia.
  - change 256%N with (Z.to_N 256). apply Z2N.inj_lt; lia.
Qed.

Lemma int_to_char_char_to_int (a : ascii) : int_to_char (char_to_int a) = a.
Proof.
  unfold char_to_int. destruct (to_int_type a <? 128).
  - apply int_to_char_to_int_type.
  - unfold int_to_char.
    replace (to_int_type a - 256) with (to_int_type a + (-1) * 256) by lia.
    rewrite Z.mod_add by lia. apply int_to_char_to_int_type.
Qed.

Lemma get_c_pending (r : CompositeWeightReader) :
  istream_good (istrm_ r) = true ->
  rdbuf (istrm_ r) = pending (get_c r) /\ (live (get_c r) \/ ended (get_c r)).
Proof.
  intros Hg. rewrite get_c_eq. unfold pending, live, ended. cbn.
  unfold istream_get. rewrite Hg.
  destruct (rdbuf (istrm_ r)) as [|a rest] eqn:B; cbn.
  - split; [reflexivity|]. right. auto.
  - rewrite to_int_type_not_EOF, int_to_char_to_int_type.
    split; [reflexivity|]. left. split; [|apply to_int_type_range].
    unfold istream_good in *. cbn. exact Hg.
Qed.

Lemma scan_body_pending (last : bool) (r r' : CompositeWeightReader) :
  live r ->
  scan_cond r last = true ->
  scan_body r = Continue r' ->
  pending r = int_to_char (c_ r) :: pending r' /\
  isspace (to_int_type (int_to_char (c_ r))) = false /\
  (live r' \/ ended r').
Proof.
  intros [Hg Hc] Hcond Hb.
  assert (Hsp : isspace (c_ r) = false).
  { unfold scan_cond in Hcond.
    destruct (isspace (c_ r)); [|reflexivity].
    now rewrite andb_false_r in Hcond. }
  rewrite to_int_type_int_to_char by exact Hc.
  unfold pending at 1. rewrite (scan_cond_not_EOF r last Hcond).
  assert (Hd : forall d,
             rdbuf (istrm_ r) = pending (get_c (set_depth d r)) /\
             (live (get_c (set_depth d r)) \/ ended (get_c (set_depth d r))))
    by (intros d; apply (get_c_pending (set_depth d r)); exact Hg).
  unfold scan_body in Hb.
  destruct (has_parens_ r && (c_ r =? char_to_int (open_paren_ r))).
  - inversion Hb; subst. destruct (Hd (Int.incr (depth_ r))) as [E L].
    rewrite E. auto.
  - destruct (has_parens_ r && (c_ r =? char_to_int (close_paren_ r))).
    + destruct (depth_ r =? 0); [discriminate|].
      inversion Hb; subst. destruct (Hd (Int.decr (depth_ r))) as [E L].
      rewrite E. auto.
    + inversion Hb; subst. destruct (get_c_pending r Hg) as [E L].
      rewrite E. auto.
Qed.

Lemma scan_reaches_pending (last : bool) (r r1 : CompositeWeightReader)
    (cs : text) :
  scan_reaches last r cs r1 ->
  live r \/ ended r ->
  pending r = cs ++ pending r1 /\
  Forall (fun a => isspace (to_int_type a) = false) cs /\
  (live r1 \/ ended r1).
Proof.
  induction 1 as [r|r r' r'' cs Hc Hb Hr IH]; intros Hl.
  - auto.
  - assert (Hlive : live r).
    { destruct Hl as [Hl|[E _]]; [exact Hl|].
      apply scan_cond_not_EOF in Hc. rewrite E in Hc. discriminate. }
    destruct (scan_body_pending last r r' Hlive Hc Hb) as (E & Hsp & Hl').
    destruct (IH Hl') as (E' & Hall & Hl'').
    rewrite E, E'. split; [reflexivity|]. split; [|exact Hl''].
    constructor; assumption.
Qed.

Section ReaderText.
Context {T : Type} `{Streamable T}.

(** A call that leaves the stream not bad has scanned a buffer that is not
    empty, has parsed it, and has skipped at most the one separator or close
    parenthesis that stopped the scan. *)
Lemma ReadElement_success (r : CompositeWeightReader) (comp : T)
    (last : bool) (more : bool) (r' : CompositeWeightReader) (v : T) :
  istream_good (istrm_ r) = true ->
  0 <= c_ r < 256 ->
  ReadElement r comp last = Some (more, r', v) ->
  istream_bad (istrm_ r') = false ->
  exists (s skipped : text),
    v = extract s comp /\
    s <> [] /\
    Forall (fun a => isspace (to_int_type a) = false) s /\
    pending r = s ++ skipped ++ pending r' /\
    (skipped = [] \/ skipped = [separator_ r] \/ skipped = [close_paren_ r]).
Proof.
  intros Hg Hc E Hnb.
  destruct (ReadElement_cases r comp last)
    as [(cs & r1 & Hr & Hstop & _ & E')|(cs & r1 & Hr & _ & _ & E')];
    rewrite E' in E.
  2:{ inversion E; subst. discriminate Hnb. }
  destruct (scan_reaches_pending last r r1 cs Hr (or_introl (conj Hg Hc)))
    as (Ep & Hall & Hl1).
  destruct (scan_reaches_keeps last r r1 cs Hr) as ((Cs & _ & _ & Cc) & _).
  destruct cs as [|a cs].
  { cbn in E. inversion E; subst. discriminate Hnb. }
  cbn [ReadElement_finish] in E.
  set (r2 := if negb (c_ r1 =? EOF) && negb (isspace (c_ r1))
             then get_c r1 else r1) in E.
  assert (E2 : exists skipped,
             pending r1 = skipped ++ pending r2 /\
             (skipped = [] \/ skipped = [separator_ r] \/
              skipped = [close_paren_ r])).
  { subst r2. destruct (c_ r1 =? EOF) eqn:Ee; cbn [negb andb].
    - exists []. auto.
    - destruct (isspace (c_ r1)) eqn:Es; cbn [negb].
      + exists []. auto.
      + assert (Hlive : live r1).
        { destruct Hl1 as [Hl|[Q _]]; [exact Hl|].
          rewrite Q in Ee. discriminate. }
        destruct (get_c_pending r1 (proj1 Hlive)) as [Eb _].
        exists [int_to_char (c_ r1)]. split.
        * unfold pending at 1. rewrite Ee, Eb. reflexivity.
        * rewrite scan_cond_stop in Hstop. apply negb_false_iff in Hstop.
          unfold scan_stop in Hstop. rewrite Ee, Es in Hstop.
          cbn [orb] in Hstop. apply orb_true_iff in Hstop.
          destruct Hstop as [Q|Q].
          -- right. left. apply andb_true_iff in Q. destruct Q as [Q _].
             apply andb_true_iff in Q. destruct Q as [Q _].
             apply Z.eqb_eq in Q.
             now rewrite Q, int_to_char_char_to_int, Cs.
          -- right. right. apply andb_true_iff in Q. destruct Q as [Q _].
             apply Z.eqb_eq in Q.
             now rewrite Q, int_to_char_char_to_int, Cc. }
  destruct E2 as (skipped & Esk & Hsk).
  assert (E3 : pending r' = pending r2).
  { destruct ((c_ r2 =? EOF) && negb (istream_bad (istrm_ r2)));
      inversion E; subst; reflexivity. }
  exists (a :: cs), skipped.
  split; [destruct ((c_ r2 =? EOF) && negb (istream_bad (istrm_ r2)));
          inversion E; reflexivity|].
  split; [discriminate|]. split; [exact Hall|].
  split; [|exact Hsk]. rewrite Ep, Esk, E3. reflexivity.
Qed.

Lemma ReadElement_empty (r : CompositeWeightReader) (comp : T) (last : bool) :
  scan_cond r last = false ->
  ReadElement r comp last = Some (false, mark_bad r, comp).
Proof.
  intros Hc. unfold ReadElement, scan_fuel. cbn [ReadElement_scan].
  rewrite Hc. reflexivity.
Qed.
End ReaderText.

(** X10: a call of [ReadElement] on a good stream that does not end with the
    stream bad neither loses nor invents a character: what the reader had
    still to deliver before the call is the text it parsed, then at most the
    one separator or close parenthesis it skipped, then what it has still to
    deliver after the call. *)
Theorem ReadElement_conserves_text (T : Type) (ST : Streamable T)
    (r : CompositeWeightReader) (comp : T) (last : bool)
    (more : bool) (r' : CompositeWeightReader) (v : T) :
  istream_good (istrm_ r) = true ->
  0 <= c_ r < 256 ->
  ReadElement r comp last = Some (more, r', v) ->
  istream_bad (istrm_ r') = false ->
  exists (s skipped : text),
    v = extract s comp /\
    pending r = s ++ skipped ++ pending r' /\
    (skipped = [] \/ skipped = [separator_ r] \/ skipped = [close_paren_ r]).
Proof.
  intros Hg Hc E Hnb.
  destruct (ReadElement_success r comp last more r' v Hg Hc E Hnb)
    as (s & skipped & Ev & _ & _ & Ep & Hsk).
  exists s, skipped. auto.
Qed.

Lemma ReadElement_conserves_text_witness :
  exists (s skipped : text),
    ["1"%char] = extract s (@nil ascii) /\
    pending reader_1_comma_2
      = s ++ skipped ++ pending (get_c (get_c reader_1_comma_2)) /\
    (skipped = [] \/ skipped = [separator_ reader_1_comma_2] \/
     skipped = [close_paren_ reader_1_comma_2]).
Proof.
  apply (ReadElement_conserves_text text text_Streamable reader_1_comma_2
           (@nil ascii) false true (get_c (get_c reader_1_comma_2))
           ["1"%char]).
  - reflexivity.
  - vm_compute. split; [discriminate | reflexivity].
  - reflexivity.
  - reflexivity.
Defined.

(** X11: the text [ReadElement] hands to the element's own [>>] is never
    empty and never contains white space. *)
Theorem ReadElement_parses_clean_text (T : Type) (ST : Streamable T)
    (r : CompositeWeightReader) (comp : T) (last : bool)
    (more : bool) (r' : CompositeWeightReader) (v : T) :
  istream_good (istrm_ r) = true ->
  0 <= c_ r < 256 ->
  ReadElement r comp last = Some (more, r', v) ->
  istream_bad (istrm_ r') = false ->
  exists s : text,
    v = extract s comp /\ s <> [] /\
    Forall (fun a => isspace (to_int_type a) = false) s.
Proof.
  intros Hg Hc E Hnb.
  destruct (ReadElement_success r comp last more r' v Hg Hc E Hnb)
    as (s & skipped & Ev & Hne & Hall & _).
  exists s. auto.
Qed.

Lemma ReadElement_parses_clean_text_witness :
  exists s : text,
    ["1"%char] = extract s (@nil ascii) /\ s <> [] /\
    Forall (fun a => isspace (to_int_type a) = false) s.
Proof.
  apply (ReadElement_parses_clean_text text text_Streamable reader_1_comma_2
           (@nil ascii) false true (get_c (get_c reader_1_comma_2))
           ["1"%char]).
  - reflexivity.
  - vm_compute. split; [discriminate | reflexivity].
  - reflexivity.
  - reflexivity.
Defined.

(** X12: after a call that returned [false] with the stream not bad -- the
    last element has been read -- every further call fails: it returns
    [false], marks the stream bad and leaves [*comp] as it was. *)
Theorem ReadElement_after_last_fails (T : Type) (ST : Streamable T)
    (r : CompositeWeightReader) (comp : T) (last : bool)
    (r' : CompositeWeightReader) (v : T) (comp2 : T) (last2 : bool) :
  ReadElement r comp last = Some (false, r', v) ->
  istream_bad (istrm_ r') = false ->
  ReadElement r' comp2 last2 = Some (false, mark_bad r', comp2).
Proof.
  intros E Hnb. apply ReadElement_empty.
  destruct (ReadElement_cases r comp last)
    as [(cs & r1 & _ & _ & _ & E')|(cs & r1 & _ & _ & _ & E')];
    rewrite E' in E.
  2:{ inversion E; subst. discriminate Hnb. }
  destruct cs as [|a cs].
  { cbn in E. inversion E; subst. discriminate Hnb. }
  cbn [ReadElement_finish] in E.
  match type of E with Some (_, ?x, _) = _ => remember x as r3 end.
  inversion E as [[Hmore Hr' Hv]]. rewrite <- Hr'. unfold scan_cond.
  rewrite Hmore. reflexivity.
Qed.

Lemma ReadElement_after_last_fails_witness :
  ReadElement
    (set_istrm (istream_clear ios_eofbit (istrm_ (get_c (get_c reader_12_eof))))
       (get_c (get_c reader_12_eof)))
    (list_ascii_of_string "old") true
  = Some (false,
          mark_bad
            (set_istrm
               (istream_clear ios_eofbit
                  (istrm_ (get_c (get_c reader_12_eof))))
               (get_c (get_c reader_12_eof))),
          list_ascii_of_string "old").
Proof.
  apply (ReadElement_after_last_fails text text_Streamable reader_12_eof
           (@nil ascii) false _ (list_ascii_of_string "12")
           (list_ascii_of_string "old") true).
  - reflexivity.
  - reflexivity.
Defined.

(** X13: malformed input cannot be retried: after a call that failed on an
    empty element or an unmatched close parenthesis, the same call on the
    reader it left fails again and leaves [*comp] as it was. *)
Theorem ReadElement_failure_repeats (T : Type) (ST : Streamable T)
    (r : CompositeWeightReader) (comp comp2 : T) (last : bool) :
  empty_element last r \/ unmatched_paren last r ->
  exists r' : CompositeWeightReader,
    ReadElement r comp last = Some (false, r', comp) /\
    ReadElement r' comp2 last = Some (false, mark_bad r', comp2).
Proof.
  intros [He|(cs & r1 & Hr & Hc & Hu)].
  - exists (mark_bad r). split; [apply ReadElement_empty; exact He|].
    apply ReadElement_empty. exact He.
  - exists (mark_bad r1). split.
    + unfold ReadElement.
      now rewrite (scan_unmatched last r r1 cs Hr Hc Hu _ _
                     (scan_fuel_measure r)).
    + unfold ReadElement.
      rewrite (scan_unmatched last (mark_bad r1) (mark_bad r1) []
                 (reaches_here last (mark_bad r1)) Hc Hu _ _
                 (scan_fuel_measure (mark_bad r1))).
      reflexivity.
Qed.

Lemma ReadElement_failure_repeats_witness :
  exists r' : CompositeWeightReader,
    ReadElement reader_second_comma (list_ascii_of_string "a") false
      = Some (false, r', list_ascii_of_string "a") /\
    ReadElement r' (list_ascii_of_string "b") false
      = Some (false, mark_bad r', list_ascii_of_string "b").
Proof.
  apply (ReadElement_failure_repeats text text_Streamable reader_second_comma
           (list_ascii_of_string "a") (list_ascii_of_string "b") false).
  left. reflexivity.
Defined.

Section ReaderParens.
Context {T : Type} `{Streamable T}.

Lemma ReadElement_finish_bad (r1 : CompositeWeightReader) (a : ascii)
    (s : text) (comp : T) :
  istream_bad (istrm_ (snd (fst (ReadElement_finish r1 (a :: s) comp))))
  = istream_bad (istrm_ r1).
Proof.
  cbn [ReadElement_finish fst snd].
  set (r2 := if negb (c_ r1 =? EOF) && negb (isspace (c_ r1))
             then get_c r1 else r1).
  assert (B2 : istream_bad (istrm_ r2) = istream_bad (istrm_ r1)).
  { subst r2. destruct (negb (c_ r1 =? EOF) && negb (isspace (c_ r1)));
      [apply get_c_bad | reflexivity]. }
  destruct (istream_bad (istrm_ r2)) eqn:Bad.
  - rewrite andb_false_r. congruence.
  - destruct (c_ r2 =? EOF); cbn [andb negb]; [|congruence].
    cbn. exact B2.
Qed.
End ReaderParens.

(** X14: without parentheses the only malformed input is an empty element:
    a call whose scan starts at a character that does not stop it parses a
    buffer that is not empty and leaves the badness of the stream as it
    was. *)
Theorem ReadElement_without_parentheses (T : Type) (ST : Streamable T)
    (r : CompositeWeightReader) (comp : T) (last : bool) :
  has_parens_ r = false ->
  scan_cond r last = true ->
  exists (s : text) (more : bool) (r' : CompositeWeightReader),
    ReadElement r comp last = Some (more, r', extract s comp) /\
    s <> [] /\
    istream_bad (istrm_ r') = istream_bad (istrm_ r).
Proof.
  intros Hp Hc.
  destruct (ReadElement_cases r comp last)
    as [(cs & r1 & Hr & Hstop & _ & E)|(cs & r1 & Hr & _ & Hu & _)].
  - destruct (scan_reaches_keeps last r r1 cs Hr) as (_ & B & _).
    destruct cs as [|a cs].
    + inversion Hr; subst. congruence.
    + pose proof (ReadElement_finish_bad r1 a cs comp) as Hb.
      destruct (ReadElement_finish r1 (a :: cs) comp) as [[m r2] v] eqn:F.
      assert (Ev : v = extract (a :: cs) comp).
      { cbn [ReadElement_finish] in F. inversion F. reflexivity. }
      exists (a :: cs), m, r2. rewrite E, Ev. split; [reflexivity|].
      split; [discriminate|]. cbn [fst snd] in Hb. congruence.
  - destruct (scan_reaches_keeps last r r1 cs Hr) as ((_ & P & _) & _).
    destruct Hu as (Hp1 & _). congruence.
Qed.

Lemma ReadElement_without_parentheses_witness :
  exists (s : text) (more : bool) (r' : CompositeWeightReader),
    ReadElement reader_1_comma_2 (@nil ascii) false
      = Some (more, r', extract s (@nil ascii)) /\
    s <> [] /\
    istream_bad (istrm_ r') = istream_bad (istrm_ reader_1_comma_2).
Proof.
  apply (ReadElement_without_parentheses text text_Streamable
           reader_1_comma_2 (@nil ascii) false).
  - reflexivity.
  - reflexivity.
Defined.

(** The depth after a path of the loop is the depth before it plus the
    balance of the parentheses scanned, within the width of [int]. *)
Lemma scan_reaches_depth (last : bool) (r r1 : CompositeWeightReader)
    (cs : text) :
  scan_reaches last r cs r1 ->
  has_parens_ r = true ->
  (to_int_type (open_paren_ r) <? 128) = true ->
  (to_int_type (close_paren_ r) <? 128) = true ->
  live r \/ ended r ->
  Int.in_range (depth_ r) ->
  depth_ r1 =
    Int.wrap (depth_ r + paren_balance (open_paren_ r) (close_paren_ r) cs).
Proof.
  induction 1 as [r|r r' r'' cs Hc Hb Hr IH]; intros Hp Ho Hcl Hl Hd.
  - cbn [paren_balance]. rewrite Z.add_0_r.
    now rewrite IntFacts.wrap_small.
  - assert (Hlive : live r).
    { destruct Hl as [Hl|[E _]]; [exact Hl|].
      apply scan_cond_not_EOF in Hc. rewrite E in Hc. discriminate. }
    destruct (scan_body_pending last r r' Hlive Hc Hb) as (_ & _ & Hl').
    destruct (scan_body_keeps r r' Hb) as ((_ & P & O & C) & _).
    assert (Ea : c_ r = to_int_type (int_to_char (c_ r)))
      by (symmetry; apply to_int_type_int_to_char; apply Hlive).
    assert (Hd' : depth_ r' =
                  Int.wrap (depth_ r +
                            (if Ascii.eqb (int_to_char (c_ r)) (open_paren_ r)
                             then 1
                             else if Ascii.eqb (int_to_char (c_ r))
                                       (close_paren_ r)
                                  then -1 else 0))).
    { unfold scan_body in Hb. rewrite Hp in Hb. cbn [andb] in Hb.
      rewrite Ea in Hb at 1.
      rewrite (lookahead_eqb _ _ Ho) in Hb.
      destruct (Ascii.eqb (int_to_char (c_ r)) (open_paren_ r)).
      - inversion Hb; subst. rewrite get_c_eq. reflexivity.
      - rewrite Ea in Hb at 1. rewrite (lookahead_eqb _ _ Hcl) in Hb.
        destruct (Ascii.eqb (int_to_char (c_ r)) (close_paren_ r)).
        + destruct (depth_ r =? 0); [discriminate|].
          inversion Hb; subst. rewrite get_c_eq. reflexivity.
        + inversion Hb; subst. rewrite get_c_eq. cbn.
          rewrite Z.add_0_r. now rewrite IntFacts.wrap_small. }
    rewrite IH.
    + rewrite O, C, Hd', IntFacts.wrap_wrap_add.
      cbn [paren_balance]. f_equal. lia.
    + congruence.
    + congruence.
    + congruence.
    + exact Hl'.
    + rewrite Hd'. apply IntFacts.wrap_in_range.
Qed.

(** X15: with parentheses enabled (7-bit characters), a call that does not
    end with the stream bad leaves the depth at the depth before the call
    plus the balance of the parentheses in the text it parsed, within the
    width of [int]; an element with balanced parentheses leaves the depth
    as it was. *)
Theorem ReadElement_depth_is_balance (T : Type) (ST : Streamable T)
    (r : CompositeWeightReader) (comp : T) (last : bool)
    (more : bool) (r' : CompositeWeightReader) (v : T) :
  has_parens_ r = true ->
  (to_int_type (open_paren_ r) <? 128) = true ->
  (to_int_type (close_paren_ r) <? 128) = true ->
  istream_good (istrm_ r) = true ->
  0 <= c_ r < 256 ->
  Int.in_range (depth_ r) ->
  ReadElement r comp last = Some (more, r', v) ->
  istream_bad (istrm_ r') = false ->
  exists s : text,
    v = extract s comp /\
    depth_ r' =
      Int.wrap (depth_ r + paren_balance (open_paren_ r) (close_paren_ r) s) /\
    (paren_balance (open_paren_ r) (close_paren_ r) s = 0 ->
     depth_ r' = depth_ r).
Proof.
  intros Hp Ho Hcl Hg Hc Hd E Hnb.
  destruct (ReadElement_cases r comp last)
    as [(cs & r1 & Hr & _ & _ & E')|(cs & r1 & Hr & _ & _ & E')];
    rewrite E' in E.
  2:{ inversion E; subst. discriminate Hnb. }
  pose proof (scan_reaches_depth last r r1 cs Hr Hp Ho Hcl
                (or_introl (conj Hg Hc)) Hd) as Hdepth.
  pose proof (ReadElement_finish_keeps r1 cs comp) as K.
  destruct cs as [|a cs].
  { cbn in E. inversion E; subst. discriminate Hnb. }
  destruct (ReadElement_finish r1 (a :: cs) comp) as [[m r2] v2] eqn:F.
  destruct K as (_ & D & _).
  assert (Ev : v2 = extract (a :: cs) comp).
  { cbn [ReadElement_finish] in F. inversion F. reflexivity. }
  inversion E; subst.
  exists (a :: cs). split; [reflexivity|].
  split; [congruence|].
  intros Hbal. rewrite D, Hdepth, Hbal, Z.add_0_r.
  now apply IntFacts.wrap_small.
Qed.

Lemma ReadElement_depth_is_balance_witness :
  exists s : text,
    list_ascii_of_string "(1,2)" = extract s (@nil ascii) /\
    depth_ reader_nested_next
    = Int.wrap (depth_ reader_nested
                + paren_balance (open_paren_ reader_nested)
                    (close_paren_ reader_nested) s) /\
    (paren_balance (open_paren_ reader_nested) (close_paren_ reader_nested) s
     = 0 ->
     depth_ reader_nested_next = depth_ reader_nested).
Proof.
  apply (ReadElement_depth_is_balance text text_Streamable reader_nested
           (@nil ascii) false true reader_nested_next
           (list_ascii_of_string "(1,2)")).
  - reflexivity.
  - reflexivity.
  - reflexivity.
  - reflexivity.
  - vm_compute. split; [discriminate | reflexivity].
  - vm_compute. split; discriminate.
  - reflexivity.
  - reflexivity.
Defined.

(** ** fstencode *)

Section FstEncodeMore.
Variable World : Type.
Variable MutableFstClass : Type.
Variable ShowUsage : string -> World -> World.
Variable MutableFstClass_Read :
  string -> bool -> World -> option MutableFstClass * World.
Variable MutableFstClass_Write :
  MutableFstClass -> string -> World -> bool * World.
Variable Decode :
  MutableFstClass -> string -> World -> MutableFstClass * World.
Variable GetEncodeFlags : bool -> bool -> Z.
Variable Encode :
  MutableFstClass -> Z -> bool -> string -> World -> MutableFstClass * World.

Local Abbreviation run' :=
  (main World MutableFstClass ShowUsage MutableFstClass_Read
        MutableFstClass_Write Decode GetEncodeFlags Encode).


(** X17: when the input transducer cannot be read, [main] exits with status
    1 having done nothing but the read: no codex is read or written and no
    transducer is written. *)
Theorem main_read_failure (fl : EncodeMainFlags) (argv : list string)
    (w w1 : World) :
  2 <= Z.of_nat (length argv) - 1 <= 3 ->
  MutableFstClass_Read
    (if String.eqb (arg argv 1) "-" then ""%string else arg argv 1) true w
  = (None, w1) ->
  run' fl argv w = (1, w1).
Proof.
  intros Hpos Hread. unfold main.
  assert (E : (Z.of_nat (length argv) <? 3) || (Z.of_nat (length argv) >? 4)
              = false).
  { apply orb_false_iff. split; [apply Z.ltb_ge; lia|].
    rewrite Z.gtb_ltb. apply Z.ltb_ge. lia. }
  rewrite E.
  assert (Ein : (if negb (String.eqb (arg argv 1) "-")
                 then arg argv 1 else ""%string)
                = (if String.eqb (arg argv 1) "-"
                   then ""%string else arg argv 1))
    by (destruct (String.eqb (arg argv 1) "-"); reflexivity).
  rewrite Ein, Hread. reflexivity.
Qed.

End FstEncodeMore.

Lemma main_read_failure_witness :
  main (list string) unit ToyEnv.ShowUsage
    (fun name _ w => (None, w ++ ["cannot read"; name]%string))
    (fun _ name w => (true, w ++ ["write"; name]%string))
    (fun f codex w => (f, w ++ ["decode"; codex]%string))
    ToyEnv.GetEncodeFlags
    (fun f _ _ codex w => (f, w ++ ["encode"; codex]%string))
    {| FLAGS_encode_labels := true; FLAGS_encode_weights := true;
       FLAGS_encode_reuse := false; FLAGS_decode := false |}
    ["fstencode"; "missing.fst"; "codex"]%string []
  = (1, ["cannot read"; "missing.fst"]%string).
Proof.
  apply (main_read_failure (list string) unit ToyEnv.ShowUsage
           (fun name _ w => (None, w ++ ["cannot read"; name]%string))
           (fun _ name w => (true, w ++ ["write"; name]%string))
           (fun f codex w => (f, w ++ ["decode"; codex]%string))
           ToyEnv.GetEncodeFlags
           (fun f _ _ codex w => (f, w ++ ["encode"; codex]%string))
           {| FLAGS_encode_labels := true; FLAGS_encode_weights := true;
              FLAGS_encode_reuse := false; FLAGS_decode := false |}
           ["fstencode"; "missing.fst"; "codex"]%string []
           ["cannot read"; "missing.fst"]%string).
  - vm_compute. split; discriminate.
  - reflexivity.
Defined.

(** X18: [ReadElement] returns on every reader, whatever the stream holds
    and whatever state it is in: the scan loop ends after at most one test
    of its condition per character left in the stream, and two more. *)
Theorem ReadElement_terminates (T : Type) (ST : Streamable T)
    (r : CompositeWeightReader) (comp : T) (last : bool) :
  exists (more : bool) (r' : CompositeWeightReader) (v : T),
    ReadElement r comp last = Some (more, r', v).
Proof.
  unfold ReadElement.
  pose proof (scan_fuel_enough last r []) as Hf.
  destruct (ReadElement_scan (scan_fuel r) last r []) as [r1 s|r1|].
  - destruct (ReadElement_finish r1 s comp) as [[m r2] v].
    exists m, r2, v. reflexivity.
  - exists false, r1, comp. reflexivity.
  - congruence.
Qed.

(** ** The lookahead after a successful call *)

Section ReaderLookahead.
Context {T : Type} `{Streamable T}.

Lemma isspace_int_to_char (c : Z) :
  0 <= c < 256 -> isspace (to_int_type (int_to_char c)) = isspace c.
Proof. intros Hc. now rewrite to_int_type_int_to_char. Qed.

(** The scan that [ReadElement] runs is a path of the loop. *)
Lemma scan_done_reaches (last : bool) (r r1 : CompositeWeightReader)
    (s : text) :
  ReadElement_scan (scan_fuel r) last r [] = ScanDone r1 s ->
  scan_reaches last r s r1 /\ scan_cond r1 last = false.
Proof.
  intros E.
  destruct (scan_outcome last (scan_fuel r) r [] (scan_fuel_measure r))
    as [(cs & r' & E' & Hr & Hs)|(cs & r' & E' & _)]; rewrite E' in E.
  - inversion E; subst. auto.
  - discriminate.
Qed.
End ReaderLookahead.

(** C7: after a scan that filled the buffer, [ReadElement] parses the buffer
    into [*comp] and returns [true] exactly when the lookahead it leaves is
    neither [EOF] nor white space.  A scan stopped by [EOF] or white space
    extracts nothing more; otherwise the scan was stopped by the separator
    or the close parenthesis, and that character is replaced by the next one
    of the stream.  On a good stream this reads, in terms of the text the
    reader has still to deliver: the text before the call is the buffer,
    then the one separator or close parenthesis that was consumed (nothing,
    if the buffer is followed by white space or by the end of the stream),
    then the text after the call; and the call returns [true] exactly when
    the text after the call starts with a character that is not white
    space. *)
Theorem ReadElement_returns_more (T : Type) (ST : Streamable T)
    (r : CompositeWeightReader) (comp : T) (last : bool)
    (r1 : CompositeWeightReader) (s : text) :
  ReadElement_scan (scan_fuel r) last r [] = ScanDone r1 s ->
  s <> [] ->
  exists (more : bool) (r' : CompositeWeightReader),
    ReadElement r comp last = Some (more, r', extract s comp) /\
    (more = true <-> c_ r' <> EOF /\ isspace (c_ r') = false) /\
    (c_ r1 = EOF \/ isspace (c_ r1) = true ->
     c_ r' = c_ r1 /\ rdbuf (istrm_ r') = rdbuf (istrm_ r1)) /\
    (c_ r1 <> EOF -> isspace (c_ r1) = false ->
     (c_ r1 = char_to_int (separator_ r1) \/
      c_ r1 = char_to_int (close_paren_ r1)) /\
     c_ r' = fst (istream_get (istrm_ r1)) /\
     rdbuf (istrm_ r') = rdbuf (snd (istream_get (istrm_ r1)))) /\
    (istream_good (istrm_ r) = true -> 0 <= c_ r < 256 ->
     (more = true <->
      exists y t, pending r' = y :: t /\ isspace (to_int_type y) = false) /\
     exists skipped : text,
       pending r = s ++ skipped ++ pending r' /\
       ((skipped = [] /\
         (pending r' = [] \/
          exists y t, pending r' = y :: t /\ isspace (to_int_type y) = true))
        \/
        (exists x, skipped = [x] /\ isspace (to_int_type x) = false /\
                   (x = separator_ r \/ x = close_paren_ r)))).
Proof.
  intros Hscan Hne. unfold ReadElement. rewrite Hscan.
  destruct (scan_done_reaches last r r1 s Hscan) as [Hreach Hcond].
  pose proof Hcond as Hstop.
  rewrite scan_cond_stop in Hstop. apply negb_false_iff in Hstop.
  destruct s as [|a s]; [congruence|]. cbn [ReadElement_finish].
  set (r2 := if negb (c_ r1 =? EOF) && negb (isspace (c_ r1))
             then get_c r1 else r1).
  set (r3 := if (c_ r2 =? EOF) && negb (istream_bad (istrm_ r2))
             then set_istrm (istream_clear ios_eofbit (istrm_ r2)) r2
             else r2).
  assert (E3 : c_ r3 = c_ r2 /\ rdbuf (istrm_ r3) = rdbuf (istrm_ r2)).
  { subst r3. destruct ((c_ r2 =? EOF) && negb (istream_bad (istrm_ r2)));
      split; reflexivity. }
  destruct E3 as [E3c E3b].
  assert (E3p : pending r3 = pending r2)
    by (unfold pending; now rewrite E3c, E3b).
  assert (Hsepclose : c_ r1 <> EOF -> isspace (c_ r1) = false ->
                      c_ r1 = char_to_int (separator_ r1) \/
                      c_ r1 = char_to_int (close_paren_ r1)).
  { intros Hc Hs. apply Z.eqb_neq in Hc.
    unfold scan_stop in Hstop. rewrite Hc, Hs in Hstop. cbn [orb] in Hstop.
    apply orb_true_iff in Hstop. destruct Hstop as [E|E].
    - left. apply andb_true_iff in E. destruct E as [E _].
      apply andb_true_iff in E. destruct E as [E _].
      now apply Z.eqb_eq in E.
    - right. apply andb_true_iff in E. destruct E as [E _].
      now apply Z.eqb_eq in E. }
  exists (negb (c_ r3 =? EOF) && negb (isspace (c_ r3))), r3.
  split; [reflexivity|]. split; [|split; [|split]].
  - rewrite andb_true_iff, !negb_true_iff, Z.eqb_neq. reflexivity.
  - intros Hstopped. rewrite E3c, E3b. subst r2.
    assert (Econd : negb (c_ r1 =? EOF) && negb (isspace (c_ r1)) = false).
    { destruct Hstopped as [E|E]; rewrite E;
        [reflexivity | apply andb_false_r]. }
    rewrite Econd. split; reflexivity.
  - intros Hc Hs. rewrite E3c, E3b. subst r2.
    split; [apply Hsepclose; assumption|].
    apply Z.eqb_neq in Hc. rewrite Hc, Hs. cbn [negb andb].
    rewrite get_c_eq. cbn. split; reflexivity.
  - intros Hg Hc.
    destruct (scan_reaches_pending last r r1 (a :: s) Hreach
                (or_introl (conj Hg Hc))) as (Ep & _ & Hl1).
    destruct (scan_reaches_keeps last r r1 (a :: s) Hreach)
      as ((Cs & _ & _ & Cc) & _).
    (* the reader after the skip is live or at the end of the stream *)
    assert (K2 : (live r2 \/ ended r2) /\
                 exists skipped,
                   pending r1 = skipped ++ pending r2 /\
                   ((skipped = [] /\
                     (c_ r2 = EOF \/ isspace (c_ r2) = true)) \/
                    (exists x, skipped = [x] /\
                               isspace (to_int_type x) = false /\
                               (x = separator_ r \/ x = close_paren_ r)))).
    { subst r2. destruct (c_ r1 =? EOF) eqn:Ee; cbn [negb andb].
      - split; [exact Hl1|]. exists []. split; [reflexivity|]. left.
        split; [reflexivity|]. left. now apply Z.eqb_eq.
      - destruct (isspace (c_ r1)) eqn:Es; cbn [negb].
        + split; [exact Hl1|]. exists []. split; [reflexivity|]. left.
          split; [reflexivity|]. right. exact Es.
        + assert (Hlive : live r1).
          { destruct Hl1 as [Hl|[Q _]]; [exact Hl|].
            rewrite Q in Ee. discriminate. }
          destruct (get_c_pending r1 (proj1 Hlive)) as [Eb Hl2].
          split; [exact Hl2|].
          exists [int_to_char (c_ r1)]. split.
          * unfold pending at 1. rewrite Ee, Eb. reflexivity.
          * right. exists (int_to_char (c_ r1)). split; [reflexivity|].
            split; [rewrite isspace_int_to_char by apply Hlive; exact Es|].
            apply Z.eqb_neq in Ee.
            destruct (Hsepclose Ee eq_refl) as [Q|Q]; rewrite Q,
              int_to_char_char_to_int; [left | right]; congruence. }
    destruct K2 as (Hl2 & skipped & Esk & Hsk).
    assert (Hnext : forall y t, pending r2 = y :: t ->
                                isspace (to_int_type y) = isspace (c_ r2)).
    { intros y t Ey. unfold pending in Ey.
      destruct (c_ r2 =? EOF) eqn:Ee; [discriminate|].
      inversion Ey; subst.
      destruct Hl2 as [[_ Hr2]|[Q _]];
        [now apply isspace_int_to_char | rewrite Q in Ee; discriminate]. }
    split.
    + rewrite E3p, E3c. rewrite andb_true_iff, !negb_true_iff. split.
      * intros [Ee Es]. unfold pending. rewrite Ee.
        eexists _, _. split; [reflexivity|].
        rewrite <- Es. apply (Hnext _ (rdbuf (istrm_ r2))).
        unfold pending. now rewrite Ee.
      * intros (y & t & Ey & Hy). rewrite (Hnext y t Ey) in Hy.
        split; [|exact Hy]. unfold pending in Ey.
        destruct (c_ r2 =? EOF); [discriminate | reflexivity].
    + exists skipped. rewrite E3p. split; [rewrite Ep, Esk; reflexivity|].
      destruct Hsk as [[E0 Hend]|Hx]; [left|right; exact Hx].
      split; [exact E0|]. destruct Hend as [Q|Q].
      * left. unfold pending. rewrite Q. reflexivity.
      * right. unfold pending. destruct (c_ r2 =? EOF) eqn:Ee.
        -- apply Z.eqb_eq in Ee. rewrite Ee in Q. discriminate.
        -- eexists _, _. split; [reflexivity|].
           rewrite <- Q. apply (Hnext _ (rdbuf (istrm_ r2))).
           unfold pending. now rewrite Ee.
Qed.

(** The first call on [1,2]: the element read is [1], the separator is
    consumed, the lookahead left is [2], nothing is left in the stream, and
    the call returns [true]. *)
Lemma ReadElement_returns_more_witness :
  exists (more : bool) (r' : CompositeWeightReader),
    ReadElement reader_1_comma_2 (@nil ascii) false
      = Some (more, r', ["1"%char]) /\
    more = true /\
    c_ r' = to_int_type "2" /\
    rdbuf (istrm_ r') = [] /\
    pending reader_1_comma_2 = ["1"%char] ++ [","%char] ++ pending r' /\
    pending r' = ["2"%char].
Proof.
  destruct (ReadElement_returns_more text text_Streamable reader_1_comma_2
              (@nil ascii) false (get_c reader_1_comma_2) ["1"%char]
              eq_refl ltac:(discriminate))
    as (more & r' & E & _).
  exists more, r'. split; [exact E|].
  vm_compute in E. injection E as Em Er. subst more r'.
  repeat split.
Defined.

(** ** The writer's index beyond [INT_MAX] *)

Lemma join_app (sep : ascii) (ts us : list text) :
  ts <> [] -> us <> [] ->
  join sep (ts ++ us) = join sep ts ++ sep :: join sep us.
Proof.
  intros Ht Hu. destruct ts as [|t ts]; [congruence|].
  destruct us as [|u us]; [congruence|].
  cbn [app]. rewrite !join_cons. unfold sep_all.
  rewrite map_app, concat_app. cbn [map concat].
  rewrite <- !app_assoc. reflexivity.
Qed.

(** A new writer that is given [n = INT_MAX] elements 7 and then 7 and 2. *)
Lemma WriteElements_past_INT_MAX (n : nat) :
  Z.of_nat n = Int.max ->
  ostrm_ (WriteElements comma_flags {| ostrm_ := []; i_ := 0 |}
            (repeat 7 n ++ [7; 2])%nat)
    = join "," (map put (repeat 7%nat n)) ++ list_ascii_of_string ",72" /\
  join "," (map put (repeat 7 n ++ [7; 2])%nat)
    = join "," (map put (repeat 7%nat n)) ++ list_ascii_of_string ",7,2".
Proof.
  intros Hlen.
  assert (Hfront : repeat 7%nat n <> []).
  { destruct n; [cbn in Hlen; int_lia | discriminate]. }
  set (front := repeat 7%nat n) in *.
  assert (Hfl : Z.of_nat (length front) = Int.max)
    by (subst front; now rewrite repeat_length).
  destruct (WriteElements_first comma_flags {| ostrm_ := []; i_ := 0 |} front
              eq_refl Hfront ltac:(lia)) as [Ho Hi].
  rewrite Hfl in Hi. cbn [ostrm_ app] in Ho.
  split.
  - unfold WriteElements in *. rewrite fold_left_app.
    cbn [fold_left]. unfold WriteElement at 1 2.
    cbn [i_ ostrm_]. rewrite Hi, Ho.
    change (Int.max >? 0) with true.
    change (Int.incr Int.max >? 0) with false.
    cbv iota. rewrite <- !app_assoc. reflexivity.
  - rewrite map_app, join_app.
    + reflexivity.
    + destruct front; [congruence | discriminate].
    + discriminate.
Qed.

